(** * wrenchfs: three FUSE providers and their contract

    A shallow embedding of the three example filesystems of the repository
    ([hello_fs.py], [format_fs.py], [wrench_fs.py]) and the proofs that
    settle the specification's claims about them.

    - [Py]       : the fragment of Python the handlers use (exceptions,
                   slices, insertion-ordered dictionaries, [os] constants);
    - [HelloFS]  : the single-file virtual provider;
    - [FormatFS] : the content-negotiating virtual provider;
    - [WrenchFS] : the credential-gated passthrough provider, whose handlers
                   are programs over the calls they make to the operating
                   system, run by an interleaving thread pool. *)

From Stdlib Require Import ZArith Lia Ascii.
From stdpp Require Import base decidable option list strings gmap.

Open Scope Z_scope.

(** ** The Python fragment *)

Module Py.

(** [bytes] objects. *)
Abbreviation bytes := (list Byte.byte).

(** The literal [b'...']. *)
Definition b (s : string) : bytes := String.list_byte_of_string s.

(** The escapes the sources' literals use: a newline and a double quote. *)
Definition nl : string := String "010"%char EmptyString.
Definition dq : string := String "034"%char EmptyString.

(** Octal literals: [oct "755"] is Python's [0o755]. *)
Fixpoint oct_digits (acc : Z) (s : string) : Z :=
  match s with
  | EmptyString => acc
  | String c s' => oct_digits (8 * acc + (Z.of_nat (nat_of_ascii c) - 48)) s'
  end.
Definition oct (s : string) : Z := oct_digits 0 s.

(** [errno] and [os] constants (Linux values). *)
Definition EPERM : Z := 1.
Definition ENOENT : Z := 2.
Definition EACCES : Z := 13.
Definition O_RDONLY : Z := 0.
Definition O_WRONLY : Z := 1.
Definition O_RDWR : Z := 2.
Definition O_CREAT : Z := 64.
Definition O_TRUNC : Z := 512.

(** The exceptions the three programs raise or let through. *)
Inductive exn : Type :=
  | FuseOSError (errno : Z)
  | FileNotFoundError
  | PermissionError
  | KeyError (key : string)
  | ValueError (msg : string)
  | TypeError
  | RuntimeError
  | AttributeError
  | OSError (errno : Z).

(** A call returns a value or raises. *)
Inductive result (A : Type) : Type :=
  | Return (a : A)
  | Raise (e : exn).
Arguments Return {A} a.
Arguments Raise {A} e.

Definition bind {A B} (r : result A) (k : A -> result B) : result B :=
  match r with
  | Return a => k a
  | Raise e => Raise e
  end.

(** The error kinds of the specification's taxonomy, as far as the virtual
    providers signal them. *)
Inductive error_kind : Type := NotFound | PermissionDenied | OtherError.

Definition kind_of (e : exn) : error_kind :=
  match e with
  | FuseOSError n =>
      if decide (n = ENOENT) then NotFound
      else if decide (n = EPERM) then PermissionDenied
      else if decide (n = EACCES) then PermissionDenied
      else OtherError
  | FileNotFoundError => NotFound
  | PermissionError => PermissionDenied
  | _ => OtherError
  end.

Definition fails_with {A} (r : result A) (k : error_kind) : Prop :=
  exists e, r = Raise e /\ kind_of e = k.

(** *** Slices

    [s[lo:hi]] on a sequence of length [len]: a missing bound is the end it
    stands for, a negative bound counts from the end, and both are clamped
    to [0..len].  [slice_indices] gives the first index and the number of
    elements taken. *)
Definition clamp (len : Z) (i : Z) : Z :=
  if i <? 0 then Z.max 0 (i + len) else Z.min i len.

Definition slice_indices (len : Z) (lo hi : option Z) : nat * nat :=
  let start := match lo with Some i => clamp len i | None => 0 end in
  let stop := match hi with Some i => clamp len i | None => len end in
  (Z.to_nat start, Z.to_nat (stop - start)).

Definition bytes_slice (s : bytes) (lo hi : option Z) : bytes :=
  let '(start, n) := slice_indices (Z.of_nat (length s)) lo hi in
  take n (drop start s).

Definition str_slice (s : string) (lo hi : option Z) : string :=
  let '(start, n) := slice_indices (Z.of_nat (String.length s)) lo hi in
  String.substring start n s.

(** *** Dictionaries

    A [dict] keeps its keys in insertion order, which is the order a [for]
    loop visits them in. *)
Definition dict (V : Type) : Type := list (string * V).

Fixpoint dict_get {V} (d : dict V) (k : string) : option V :=
  match d with
  | [] => None
  | (k', v) :: d' => if decide (k' = k) then Some v else dict_get d' k
  end.

(** [d[k]] *)
Definition getitem {V} (d : dict V) (k : string) : result V :=
  match dict_get d k with
  | Some v => Return v
  | None => Raise (KeyError k)
  end.

(** [k in d] *)
Definition contains {V} (d : dict V) (k : string) : bool :=
  bool_decide (is_Some (dict_get d k)).

Definition keys {V} (d : dict V) : list string := d.*1.

(** [len(b)] on bytes, as a Python integer. *)
Definition len (s : bytes) : Z := Z.of_nat (length s).

End Py.

Import Py.

(** ** hello_fs.py *)

Module HelloFS.

Definition hello_path : string := "/hello".
Definition hello_str : bytes := b ("Hello, World!" +:+ nl).

Definition getattr (path : string) (fh : option Z)
  : result (gmap string Z) :=
  if decide (path = "/") then
    Return {[ "st_mode" := Z.lor (oct "755") (oct "040000");
              "st_nlink" := 2 ]}
  else if decide (path = hello_path) then
    Return {[ "st_mode" := Z.lor (oct "444") (oct "100000");
              "st_nlink" := 1;
              "st_size" := len hello_str ]}
  else Raise (FuseOSError ENOENT).

Definition readdir (path : string) (fh : Z) : result (list string) :=
  if decide (path = "/") then
    Return [ "."; ".."; str_slice hello_path (Some 1) None ]
  else Raise (FuseOSError ENOENT).

Definition open (path : string) (flags : Z) : result Z :=
  if decide (path <> hello_path) then Raise (FuseOSError ENOENT)
  else
    let allowed_flags := Z.lor (Z.lor O_RDONLY O_WRONLY) O_RDWR in
    if decide (Z.land flags allowed_flags <> O_RDONLY) then
      Raise (FuseOSError EPERM)
    else Return 0.

Definition read (path : string) (size offset : Z) (fh : Z) : result bytes :=
  if decide (path <> hello_path) then Raise (FuseOSError ENOENT)
  else Return (bytes_slice hello_str (Some offset) (Some (offset + size))).

End HelloFS.

(** ** format_fs.py *)

Module FormatFS.

(** The class attributes, read through [self]. *)
Record attrs : Type := {
  hello_path : string;
  content_by_format : dict bytes;
  default_format : string;
}.

Definition cls : attrs := {|
  hello_path := "/hello";
  content_by_format :=
    [ ("csv", b ("greeting,recipient" +:+ nl +:+ "Hello,World!" +:+ nl));
      ("txt", b ("Hello, World!" +:+ nl));
      ("json", b ("{" +:+ dq +:+ "message" +:+ dq +:+ ": " +:+ dq
                  +:+ "Hello, World!" +:+ dq +:+ "}" +:+ nl));
      ("xml", b ("<message>Hello, World!</message>" +:+ nl)) ];
  default_format := "txt";
|}.

Definition file_attr (size : Z) : gmap string Z :=
  {[ "st_mode" := Z.lor (oct "444") (oct "100000");
     "st_nlink" := 1;
     "st_size" := size ]}.

(** The loop [for ext in self.content_by_format] of [getattr]: the first
    key whose path is the requested one answers; [None] when the loop runs
    out. *)
Fixpoint getattr_loop (self : attrs) (path : string) (exts : list string)
  : option (result (gmap string Z)) :=
  match exts with
  | [] => None
  | ext :: exts' =>
      if decide (path = hello_path self +:+ "." +:+ ext) then
        Some (bind (getitem (content_by_format self) ext)
                (fun c => Return (file_attr (len c))))
      else getattr_loop self path exts'
  end.

(** [path[0:len(self.hello_path + '.')] == self.hello_path + '.'] behind
    the length test [len(path) > 7]. *)
Definition has_dot_prefix (self : attrs) (path : string) : bool :=
  bool_decide (7 < Z.of_nat (String.length path)) &&
  bool_decide
    (str_slice path (Some 0)
       (Some (Z.of_nat (String.length (hello_path self +:+ "."))))
     = hello_path self +:+ ".").

Definition getattr (self : attrs) (path : string) (fh : option Z)
  : result (gmap string Z) :=
  if decide (path = "/") then
    Return {[ "st_mode" := Z.lor (oct "755") (oct "040000");
              "st_nlink" := 2 ]}
  else if decide (path = hello_path self) then
    bind (getitem (content_by_format self) (default_format self))
      (fun c => Return (file_attr (len c)))
  else
    match
      (if has_dot_prefix self path
       then getattr_loop self path (keys (content_by_format self))
       else None)
    with
    | Some r => r
    | None => Raise (FuseOSError ENOENT)
    end.

Definition readdir (self : attrs) (path : string) (fh : Z)
  : result (list string) :=
  if decide (path = "/") then
    Return [ "."; ".."; str_slice (hello_path self) (Some 1) None ]
  else Raise FileNotFoundError.

Definition open (self : attrs) (path : string) (flags : Z) : result Z :=
  if decide (path <> hello_path self) then Raise FileNotFoundError
  else
    let allowed_flags := Z.lor (Z.lor O_RDONLY O_WRONLY) O_RDWR in
    if decide (Z.land flags allowed_flags <> O_RDONLY) then
      Raise PermissionError
    else Return 0.

Definition read (self : attrs) (path : string) (size offset : Z) (fh : Z)
  : result bytes :=
  if decide (path = hello_path self) then
    getitem (content_by_format self) (default_format self)
  else if has_dot_prefix self path then
    let ext :=
      str_slice path
        (Some (Z.of_nat (String.length (hello_path self +:+ ".")))) None in
    if negb (contains (content_by_format self) ext) then
      Raise (FuseOSError ENOENT)
    else getitem (content_by_format self) ext
  else Raise (FuseOSError ENOENT).

(** The class with another table of formats: [hello_path] stays. *)
Definition with_formats (tbl : dict bytes) (dflt : string) : attrs :=
  {| hello_path := "/hello"; content_by_format := tbl;
     default_format := dflt |}.

(** The paths of the synthetic files: the base path and the base path with
    each registered suffix. *)
Definition served (self : attrs) : list string :=
  hello_path self
  :: map (fun ext => hello_path self +:+ "." +:+ ext)
       (keys (content_by_format self)).

(** Letter case, to say what a path that differs only in case is. *)
Definition lower_char (c : ascii) : ascii :=
  let n := nat_of_ascii c in
  if bool_decide (65 <= n <= 90)%nat then ascii_of_nat (n + 32) else c.

Fixpoint lower (s : string) : string :=
  match s with
  | EmptyString => EmptyString
  | String c s' => String (lower_char c) (lower s')
  end.

(** The paths the classifier must turn down: the base path with a suffix
    that is not registered, the base name run on without a dot, and a
    synthetic file's path in another letter case. *)
Inductive unmatched (self : attrs) : string -> Prop :=
  | unmatched_suffix s :
      dict_get (content_by_format self) s = None ->
      unmatched self (hello_path self +:+ "." +:+ s)
  | unmatched_extension c t :
      c <> "."%char ->
      unmatched self (hello_path self +:+ String c t)
  | unmatched_case p q :
      q ∈ served self -> p <> q -> lower p = lower q ->
      unmatched self p.

End FormatFS.

(** ** wrench_fs.py *)

Module WrenchFS.

(** The values that cross the handler boundary. *)
#[warnings="-register-all"] Inductive value : Type :=
  | VNone
  | VBool (t : bool)
  | VInt (n : Z)
  | VStr (s : string)
  | VBytes (d : bytes)
  | VList (l : list value)
  | VStruct (fields : list (string * value))
  | VDict (items : list (string * value)).

(** What a handler asks of its environment: a function of the [os] module
    (or a builtin) applied to its arguments, or one of the two operations on
    [self.rwlock]. *)
Inductive call : Type :=
  | Os (fn : string) (args : list value)
  | Acquire
  | Release.

(** A handler body: it ends with a result or makes a call and goes on with
    the answer. *)
Inductive prog (A : Type) : Type :=
  | Done (r : result A)
  | Call (c : call) (k : result value -> prog A).
Arguments Done {A} r.
Arguments Call {A} c k.

Fixpoint then_ {A B} (p : prog A) (k : result A -> prog B) : prog B :=
  match p with
  | Done r => k r
  | Call c f => Call c (fun a => then_ (f a) k)
  end.

(** Sequencing: an exception ends the body. *)
#[export] Instance prog_ret : MRet prog := fun A a => Done (Return a).
#[export] Instance prog_bind : MBind prog := fun A B k p =>
  then_ p (fun r => match r with
                    | Return a => k a
                    | Raise e => Done (Raise e)
                    end).

Definition raise {A} (e : exn) : prog A := Done (Raise e).

(** [try: body finally: cleanup] *)
Definition finally {A} (body : prog A) (cleanup : prog value) : prog A :=
  then_ body (fun r =>
    then_ cleanup (fun r' =>
      match r' with
      | Return _ => Done r
      | Raise e => Done (Raise e)
      end)).

Definition os (fn : string) (args : list value) : prog value :=
  Call (Os fn args) Done.

(** [with self.rwlock: body] *)
Definition with_rwlock {A} (body : prog A) : prog A :=
  _ ← Call Acquire Done; finally body (Call Release Done).

(** [threading.Lock] *)
Inductive lock : Type := Unlocked | Locked.

Record self_t : Type := {
  root : string;
  rwlock : lock;
}.

Definition handler : Type := list value -> prog value.

(** Truth of a value, for [if not ...]. *)
Definition truthy (v : value) : bool :=
  match v with
  | VNone => false
  | VBool t => t
  | VInt n => negb (n =? 0)
  | VStr s => negb (bool_decide (s = ""))
  | VBytes d => negb (bool_decide (d = []))
  | VList l => match l with [] => false | _ => true end
  | VStruct _ => true
  | VDict items => match items with [] => false | _ => true end
  end.

(** [v != 0] *)
Definition ne_zero (v : value) : bool :=
  match v with
  | VInt n => negb (n =? 0)
  | VBool t => t
  | _ => true
  end.

(** [s + v] for a string [s] *)
Definition str_add (s : string) (v : value) : prog value :=
  match v with
  | VStr t => mret (VStr (s +:+ t))
  | _ => raise TypeError
  end.

(** [dict((key, getattr(st, key)) for key in names)] *)
Fixpoint project (st : list (string * value)) (names : list string)
  : prog (list (string * value)) :=
  match names with
  | [] => mret []
  | key :: names' =>
      match dict_get st key with
      | Some v => rest ← project st names'; mret ((key, v) :: rest)
      | None => raise AttributeError
      end
  end.

Definition attributes_of (st : value) (names : list string) : prog value :=
  match st with
  | VStruct fields => d ← project fields names; mret (VDict d)
  | _ => raise AttributeError
  end.

Section Handlers.

Context (self : self_t).

Definition access : handler := fun args =>
  match args with
  | [path; mode] =>
      ok ← os "os.access" [path; mode];
      if negb (truthy ok) then raise (FuseOSError EACCES) else mret VNone
  | _ => raise TypeError
  end.

Definition chmod : handler := os "os.chmod".
Definition chown : handler := os "os.chown".

Definition create : handler := fun args =>
  match args with
  | [path; mode] =>
      os "os.open"
        [path; VInt (Z.lor (Z.lor O_WRONLY O_CREAT) O_TRUNC); mode]
  | _ => raise TypeError
  end.

Definition flush : handler := fun args =>
  match args with
  | [path; fh] => os "os.fsync" [fh]
  | _ => raise TypeError
  end.

Definition fsync : handler := fun args =>
  match args with
  | [path; datasync; fh] =>
      if ne_zero datasync then os "os.fdatasync" [fh] else os "os.fsync" [fh]
  | _ => raise TypeError
  end.

Definition getattr_body (path : value) : prog value :=
  st ← os "os.lstat" [path];
  attributes_of st
    [ "st_atime"; "st_ctime"; "st_gid"; "st_mode"; "st_mtime";
      "st_nlink"; "st_size"; "st_uid" ].

Definition getattr : handler := fun args =>
  match args with
  | [path] | [path; _] => getattr_body path
  | _ => raise TypeError
  end.

Definition getxattr : handler := fun _ => raise TypeError.

Definition link : handler := fun args =>
  match args with
  | [target; source] =>
      src ← str_add (root self) source;
      os "os.link" [src; target]
  | _ => raise TypeError
  end.

Definition listxattr : handler := fun _ => raise TypeError.

Definition mkdir : handler := os "os.mkdir".
Definition mknod : handler := os "os.mknod".
Definition open : handler := os "os.open".
Definition readlink : handler := os "os.readlink".
Definition rmdir : handler := os "os.rmdir".
Definition unlink : handler := os "os.unlink".
Definition utimens : handler := os "os.utime".

Definition rename : handler := fun args =>
  match args with
  | [old; new] => os "os.rename" [old; new]
  | _ => raise TypeError
  end.

Definition read : handler := fun args =>
  match args with
  | [path; size; offset; fh] =>
      with_rwlock (
        _ ← os "os.lseek" [fh; offset; VInt 0];
        os "os.read" [fh; size])
  | _ => raise TypeError
  end.

Definition readdir : handler := fun args =>
  match args with
  | [path; fh] =>
      names ← os "os.listdir" [path];
      match names with
      | VList l => mret (VList (VStr "." :: VStr ".." :: l))
      | _ => raise TypeError
      end
  | _ => raise TypeError
  end.

Definition release : handler := fun args =>
  match args with
  | [path; fh] => os "os.close" [fh]
  | _ => raise TypeError
  end.

Definition statfs : handler := fun args =>
  match args with
  | [path] =>
      stv ← os "os.statvfs" [path];
      attributes_of stv
        [ "f_bavail"; "f_bfree"; "f_blocks"; "f_bsize"; "f_favail";
          "f_ffree"; "f_files"; "f_flag"; "f_frsize"; "f_namemax" ]
  | _ => raise TypeError
  end.

Definition symlink : handler := fun args =>
  match args with
  | [target; source] => os "os.symlink" [source; target]
  | _ => raise TypeError
  end.

(** [with open(path, 'r+') as f: f.truncate(length)]: the builtin [open],
    the file object's [truncate], and its [close] on the way out. *)
Definition truncate_body (path length : value) : prog value :=
  f ← os "open" [path; VStr "r+"];
  _ ← finally (os "file.truncate" [f; length]) (os "file.close" [f]);
  mret VNone.

Definition truncate : handler := fun args =>
  match args with
  | [path; length] | [path; length; _] => truncate_body path length
  | _ => raise TypeError
  end.

Definition write : handler := fun args =>
  match args with
  | [path; data; offset; fh] =>
      with_rwlock (
        _ ← os "os.lseek" [fh; offset; VInt 0];
        os "os.write" [fh; data])
  | _ => raise TypeError
  end.

(** The attributes the class body binds, by name. *)
Definition methods : dict handler :=
  [ ("access", access); ("chmod", chmod); ("chown", chown);
    ("create", create); ("flush", flush); ("fsync", fsync);
    ("getattr", getattr); ("getxattr", getxattr); ("link", link);
    ("listxattr", listxattr); ("mkdir", mkdir); ("mknod", mknod);
    ("open", open); ("readlink", readlink); ("rmdir", rmdir);
    ("unlink", unlink); ("utimens", utimens); ("rename", rename);
    ("read", read); ("readdir", readdir); ("release", release);
    ("statfs", statfs); ("symlink", symlink); ("truncate", truncate);
    ("write", write) ].

(** [super().__call__(op, path, *args)] is fusepy's dispatcher: it looks the
    attribute [op] up on [self] and calls it.  The attributes [WrenchFS]
    does not bind come from fusepy's [Operations]; they are the parameter
    [inherited]. *)
Context (inherited : string -> handler).

Definition super_call (op : string) (args : list value) : prog value :=
  match dict_get methods op with
  | Some h => h args
  | None => inherited op args
  end.

Definition __call__ (op : string) (path : string) (args : list value)
  : prog value :=
  super_call op (VStr (root self +:+ path) :: args).

End Handlers.

(** [WrenchFS(password, mount)]: the instance and what it printed, or the
    exception.  [realpath] is [os.path.realpath] in the directory the
    process was started in. *)
Definition __init__ (realpath : string -> string) (password mount : string)
  : result (self_t * list string) :=
  bind
    (if decide (password = "password1") then Return (realpath "./benign")
     else if decide (password = "supersecret") then
       Return (realpath "./secret")
     else
       Raise (ValueError
         "Invalid password provided. Use 'password1' or 'supersecret'."))
    (fun r =>
       Return ({| root := r; rwlock := Unlocked |},
               [ "File system mounted at: " +:+ mount ])).

(** *** Running a handler

    [runs p tr r]: the body [p] makes the calls of [tr], receives the
    answers recorded there, and ends with [r]. *)
Definition event : Type := call * result value.

Inductive runs {A} : prog A -> list event -> result A -> Prop :=
  | runs_done r : runs (Done r) [] r
  | runs_call c k a tr r :
      runs (k a) tr r -> runs (Call c k) ((c, a) :: tr) r.

(** The same against an environment that answers each call by a function. *)
Fixpoint run {A} (env : call -> result value) (p : prog A)
  : list event * result A :=
  match p with
  | Done r => ([], r)
  | Call c k => let '(tr, r) := run env (k (env c)) in ((c, env c) :: tr, r)
  end.

(** *** The thread pool

    The hosting runtime serves requests from several threads, all on the
    one provider instance.  A request that raises is answered with an error
    code and the thread goes on with its next request. *)
Record request : Type := {
  op : string;
  path : string;
  args : list value;
}.

Fixpoint serve (self : self_t) (inherited : string -> handler)
    (reqs : list request) : prog value :=
  match reqs with
  | [] => mret VNone
  | q :: reqs' =>
      then_ (__call__ self inherited (op q) (path q) (args q))
        (fun _ => serve self inherited reqs')
  end.

Record pool : Type := {
  obj : self_t;
  threads : list (prog value);
}.

Definition set_lock (s : self_t) (l : lock) : self_t :=
  {| root := root s; rwlock := l |}.

(** One step of one thread: [label] is the thread, its call and the answer.
    [acquire] blocks while the lock is taken; [release] of a lock that is
    not taken raises; the operating system answers an [os] call with
    anything. *)
Definition label : Type := nat * call * result value.

Inductive step : pool -> label -> pool -> Prop :=
  | step_acquire s ts i k :
      ts !! i = Some (Call Acquire k) ->
      rwlock s = Unlocked ->
      step {| obj := s; threads := ts |}
           (i, Acquire, Return (VBool true))
           {| obj := set_lock s Locked;
              threads := <[i := k (Return (VBool true))]> ts |}
  | step_release s ts i k :
      ts !! i = Some (Call Release k) ->
      rwlock s = Locked ->
      step {| obj := s; threads := ts |}
           (i, Release, Return VNone)
           {| obj := set_lock s Unlocked;
              threads := <[i := k (Return VNone)]> ts |}
  | step_release_unlocked s ts i k :
      ts !! i = Some (Call Release k) ->
      rwlock s = Unlocked ->
      step {| obj := s; threads := ts |}
           (i, Release, Raise RuntimeError)
           {| obj := s; threads := <[i := k (Raise RuntimeError)]> ts |}
  | step_os s ts i fn xs k a :
      ts !! i = Some (Call (Os fn xs) k) ->
      step {| obj := s; threads := ts |}
           (i, Os fn xs, a)
           {| obj := s; threads := <[i := k a]> ts |}.

Inductive steps : pool -> list label -> pool -> Prop :=
  | steps_nil p : steps p [] p
  | steps_cons p l p' tr p'' :
      step p l p' -> steps p' tr p'' -> steps p (l :: tr) p''.

(** *** The serialisation monitor

    What the lock is to guarantee, as an automaton over the labels of a
    run: between a thread's [acquire] and its [release] it repositions one
    handle and transfers on that handle once, and in the meantime no other
    thread repositions or transfers. *)
Inductive phase : Type :=
  | Free
  | Seeking (i : nat)
  | Transferring (i : nat) (fh : value)
  | Releasing (i : nat).

Definition moves_offset (fn : string) : bool :=
  bool_decide (fn ∈ ["os.lseek"; "os.read"; "os.write"]).

Definition is_transfer (fn : string) : bool :=
  bool_decide (fn ∈ ["os.read"; "os.write"]).

Inductive monitor : phase -> label -> phase -> Prop :=
  | monitor_acquire i a :
      monitor Free (i, Acquire, a) (Seeking i)
  | monitor_seek i fh offset v :
      monitor (Seeking i)
        (i, Os "os.lseek" [fh; offset; VInt 0], Return v)
        (Transferring i fh)
  | monitor_seek_failed i fh offset e :
      monitor (Seeking i)
        (i, Os "os.lseek" [fh; offset; VInt 0], Raise e)
        (Releasing i)
  | monitor_transfer i fh fn x a :
      is_transfer fn = true ->
      monitor (Transferring i fh) (i, Os fn [fh; x], a) (Releasing i)
  | monitor_release i a :
      monitor (Releasing i) (i, Release, a) Free
  | monitor_other ph i fn xs a :
      moves_offset fn = false ->
      monitor ph (i, Os fn xs, a) ph.

Inductive accepted : phase -> list label -> Prop :=
  | accepted_nil ph : accepted ph []
  | accepted_cons ph l ph' tr :
      monitor ph l ph' -> accepted ph' tr -> accepted ph (l :: tr).

(** *** The shape of a thread's remaining program

    Where a thread stands with respect to the lock: outside ([TOut]), about
    to reposition ([TSeek]), about to transfer on the handle it repositioned
    ([TXfer]), or about to release ([TRel]). *)
Inductive tag : Type := TOut | TSeek | TXfer (fh : value) | TRel.

Inductive shaped {A} : tag -> prog A -> Prop :=
  | shaped_done r : shaped TOut (Done r)
  | shaped_os fn xs k :
      moves_offset fn = false ->
      (forall a, shaped TOut (k a)) ->
      shaped TOut (Call (Os fn xs) k)
  | shaped_acquire k :
      shaped TSeek (k (Return (VBool true))) ->
      shaped TOut (Call Acquire k)
  | shaped_seek fh offset k :
      (forall v, shaped (TXfer fh) (k (Return v))) ->
      (forall e, shaped TRel (k (Raise e))) ->
      shaped TSeek (Call (Os "os.lseek" [fh; offset; VInt 0]) k)
  | shaped_transfer fh fn x k :
      is_transfer fn = true ->
      (forall a, shaped TRel (k a)) ->
      shaped (TXfer fh) (Call (Os fn [fh; x]) k)
  | shaped_release k :
      shaped TOut (k (Return VNone)) ->
      shaped TRel (Call Release k).

Definition tag_of (ph : phase) (j : nat) : tag :=
  match ph with
  | Free => TOut
  | Seeking i => if decide (j = i) then TSeek else TOut
  | Transferring i fh => if decide (j = i) then TXfer fh else TOut
  | Releasing i => if decide (j = i) then TRel else TOut
  end.

Definition lock_of (ph : phase) : lock :=
  match ph with Free => Unlocked | _ => Locked end.

(** The pool invariant that goes with a monitor state. *)
Definition inv (ph : phase) (P : pool) : Prop :=
  rwlock (obj P) = lock_of ph /\
  forall j p, threads P !! j = Some p -> shaped (tag_of ph j) p.

(** The pool a mounted provider starts from: the lock free, each thread with
    the requests it is going to serve. *)
Definition start (self : self_t) (inherited : string -> handler)
    (work : list (list request)) : pool :=
  {| obj := set_lock self Unlocked;
     threads := serve self inherited <$> work |}.

(** A label that repositions a handle or transfers on one. *)
Definition offset_label (l : label) : Prop :=
  match l with
  | (_, Os fn _, _) => moves_offset fn = true
  | _ => False
  end.

(** *** One [read] or [write], run on its own

    The calls of a handler that repositions [fh] to [offset] and then makes
    the one transfer [xfer], with the lock answering as it does in the
    pool, and the result that goes with them. *)
Inductive critical_section (fh offset : value) (xfer : call)
  : list event -> result value -> Prop :=
  | critical_section_transfer v a :
      critical_section fh offset xfer
        [ (Acquire, Return (VBool true));
          (Os "os.lseek" [fh; offset; VInt 0], Return v);
          (xfer, a);
          (Release, Return VNone) ]
        a
  | critical_section_seek_failed e :
      critical_section fh offset xfer
        [ (Acquire, Return (VBool true));
          (Os "os.lseek" [fh; offset; VInt 0], Raise e);
          (Release, Return VNone) ]
        (Raise e).

(** The lock's answers in a trace are the ones the pool gives. *)
Definition lock_answers (tr : list event) : Prop :=
  Forall (fun ev : event =>
            match ev.1 with
            | Acquire => ev.2 = Return (VBool true)
            | Release => ev.2 = Return VNone
            | Os _ _ => True
            end) tr.

(** What serialisation means for the labels of a run.  After a thread has
    repositioned a handle, the next call of the run that repositions or
    transfers, if there is one, is that thread's transfer on that handle;
    and before a transfer, the last such call is the same thread's
    successful reposition of the same handle. *)
Definition quiet (tr : list label) : Prop :=
  Forall (fun l => ~ offset_label l) tr.

Definition seek_then_transfer (tr : list label) : Prop :=
  forall pre i fh offset v mid l post,
    tr = pre ++ (i, Os "os.lseek" [fh; offset; VInt 0], Return v)
             :: mid ++ l :: post ->
    quiet mid -> offset_label l ->
    exists fn x a, l = (i, Os fn [fh; x], a) /\ is_transfer fn = true.

Definition transfer_after_seek (tr : list label) : Prop :=
  forall pre i fn xs a post,
    tr = pre ++ (i, Os fn xs, a) :: post ->
    is_transfer fn = true ->
    exists pre' fh offset v mid x,
      pre = pre' ++ (i, Os "os.lseek" [fh; offset; VInt 0], Return v) :: mid
      /\ quiet mid /\ xs = [fh; x].

(** An absolute path. *)
Definition is_absolute (p : string) : Prop := String.prefix "/" p = true.



(** The thread that holds the lock in a monitor state. *)
Definition holder (ph : phase) : option nat :=
  match ph with
  | Free => None
  | Seeking i | Transferring i _ | Releasing i => Some i
  end.

(** The lock holder of a monitor state is one of the pool's threads. *)
Definition holder_present (ph : phase) (P : pool) : Prop :=
  forall i, holder ph = Some i -> is_Some (threads P !! i).

(** A thread whose next call repositions, transfers or releases: it is
    between its [acquire] and its [release]. *)
Definition in_section {A} (p : prog A) : Prop :=
  match p with
  | Call Release _ => True
  | Call (Os fn _) _ => moves_offset fn = true
  | _ => False
  end.

(** The operations whose handler is a function of the [os] module bound in
    the class body, with that function. *)
Definition os_bound : list (string * string) :=
  [ ("chmod", "os.chmod"); ("chown", "os.chown"); ("mkdir", "os.mkdir");
    ("mknod", "os.mknod"); ("open", "os.open");
    ("readlink", "os.readlink"); ("rmdir", "os.rmdir");
    ("unlink", "os.unlink"); ("utimens", "os.utime") ].

End WrenchFS.
Example hello_read_all : HelloFS.read "/hello" 14 0 0 = Return HelloFS.hello_str.
Proof. reflexivity. Qed.

Example format_getattr_json :
  FormatFS.getattr FormatFS.cls "/hello.json" None
  = Return (FormatFS.file_attr 29).
Proof. reflexivity. Qed.

Example format_read_xml :
  FormatFS.read FormatFS.cls "/hello.xml" 5 0 0
  = Return (b ("<message>Hello, World!</message>" +:+ nl)).
Proof. reflexivity. Qed.

(** ** Slices with non-negative bounds *)

Section Slices.

Lemma clamp_nonneg (n i : Z) : 0 <= n -> 0 <= i -> clamp n i = Z.min i n.
Proof. intros Hn Hi. unfold clamp. destruct (Z.ltb_spec i 0); lia. Qed.

(** [s[offset : offset+size]] for a non-negative offset and size: drop
    [offset] bytes, keep at most [size]. *)
Lemma bytes_slice_window (s : bytes) (offset size : Z) :
  0 <= offset -> 0 <= size ->
  bytes_slice s (Some offset) (Some (offset + size))
  = take (Z.to_nat size) (drop (Z.to_nat offset) s).
Proof.
  intros Ho Hs. unfold bytes_slice, slice_indices.
  rewrite !clamp_nonneg by lia.
  set (n := Z.of_nat (length s)).
  destruct (Z.le_gt_cases n offset) as [Hge | Hlt].
  - rewrite (drop_ge s (Z.to_nat offset)) by lia.
    rewrite (drop_ge s (Z.to_nat (Z.min offset n))) by lia.
    by rewrite !take_nil.
  - replace (Z.min offset n) with offset by lia.
    destruct (Z.le_gt_cases (offset + size) n) as [Hin | Hout].
    + by replace (Z.min (offset + size) n - offset) with size by lia.
    + replace (Z.min (offset + size) n - offset) with (n - offset) by lia.
      rewrite !take_ge; [done | |]; rewrite length_drop; lia.
Qed.

Lemma bytes_slice_past_end (s : bytes) (offset size : Z) :
  0 <= size -> len s <= offset ->
  bytes_slice s (Some offset) (Some (offset + size)) = [].
Proof.
  intros Hs Ho. unfold len in Ho.
  rewrite bytes_slice_window by lia.
  rewrite drop_ge by lia. apply take_nil.
Qed.

Lemma substring_all (s : string) (n : nat) :
  (String.length s <= n)%nat -> String.substring 0 n s = s.
Proof.
  revert n. induction s as [| c s IH]; intros [| n] Hn; simpl in *;
    try done; try lia.
  f_equal. apply IH. lia.
Qed.

Lemma substring_append (s t : string) :
  String.substring 0 (String.length s) (s +:+ t) = s.
Proof. induction s as [| c s IH]; simpl; [by destruct t | by f_equal]. Qed.

Lemma substring_drop_append (s t : string) :
  String.substring (String.length s) (String.length t) (s +:+ t) = t.
Proof.
  induction s as [| c s IH]; simpl; [| done].
  by apply substring_all.
Qed.

Lemma length_append (s t : string) :
  String.length (s +:+ t) = (String.length s + String.length t)%nat.
Proof. induction s as [| c s IH]; simpl; [done | by f_equal]. Qed.

(** [(s + t)[0:len(s)] == s] and [(s + t)[len(s):] == t]. *)
Lemma str_slice_prefix (s t : string) :
  str_slice (s +:+ t) (Some 0) (Some (Z.of_nat (String.length s))) = s.
Proof.
  unfold str_slice, slice_indices. rewrite !clamp_nonneg by lia.
  rewrite length_append.
  replace (Z.to_nat (Z.min 0 _)) with 0%nat by lia.
  replace (Z.to_nat _) with (String.length s) by lia.
  apply substring_append.
Qed.

Lemma str_slice_suffix (s t : string) :
  str_slice (s +:+ t) (Some (Z.of_nat (String.length s))) None = t.
Proof.
  unfold str_slice, slice_indices. rewrite !clamp_nonneg by lia.
  rewrite length_append.
  replace (Z.to_nat (Z.min _ _)) with (String.length s) by lia.
  replace (Z.to_nat _) with (String.length t) by lia.
  apply substring_drop_append.
Qed.

(** A string whose first [len(s)] characters are [s] is [s + rest]. *)
Lemma substring_prefix_inv (s p : string) :
  (String.length s <= String.length p)%nat ->
  String.substring 0 (String.length s) p = s ->
  exists t, p = s +:+ t.
Proof.
  revert p. induction s as [| c s IH]; intros p Hlen Hsub.
  - by exists p.
  - destruct p as [| c' p]; simpl in *; [lia |].
    injection Hsub as -> Hsub.
    destruct (IH p) as [t ->]; [lia | done |]. by exists t.
Qed.

Lemma append_inj_r (s t u : string) : s +:+ t = s +:+ u -> t = u.
Proof. induction s as [| c s IH]; simpl; [done |]. intros [=]. auto. Qed.

End Slices.

(** ** The virtual providers: path classification *)

Section Classification.

Import FormatFS.

Context (tbl : dict bytes) (dflt : string) (handle : option Z).
Let self := with_formats tbl dflt.

Lemma dict_get_keys {V} (d : dict V) (k : string) :
  k ∈ keys d <-> is_Some (dict_get d k).
Proof.
  unfold keys. induction d as [| [k' v] d IH]; simpl.
  - split; [by intros ?%elem_of_nil | by intros [? ?]].
  - rewrite elem_of_cons, IH. case_decide; subst; split; eauto.
    + intros [? | ?]; [congruence | done].
Qed.

Lemma dict_get_None_keys {V} (d : dict V) (k : string) :
  dict_get d k = None <-> k ∉ keys d.
Proof. rewrite dict_get_keys, eq_None_not_Some. done. Qed.

Lemma contains_spec {V} (d : dict V) (k : string) :
  contains d k = true <-> k ∈ keys d.
Proof. unfold contains. by rewrite bool_decide_eq_true, dict_get_keys. Qed.

Lemma has_dot_prefix_suffixed (s : string) :
  s <> "" -> has_dot_prefix self ("/hello" +:+ "." +:+ s) = true.
Proof.
  intros Hs. unfold has_dot_prefix. apply andb_true_iff. split.
  - apply bool_decide_eq_true. destruct s; [done | simpl; lia].
  - apply bool_decide_eq_true. apply (str_slice_prefix "/hello." s).
Qed.

Lemma has_dot_prefix_inv (p : string) :
  has_dot_prefix self p = true -> exists s, s <> "" /\ p = "/hello." +:+ s.
Proof.
  unfold has_dot_prefix. intros [Hlen Hpre]%andb_true_iff.
  apply bool_decide_eq_true in Hlen, Hpre.
  unfold str_slice, slice_indices in Hpre.
  rewrite !clamp_nonneg in Hpre by (simpl; lia).
  simpl hello_path in Hpre. simpl String.length in Hpre.
  replace (Z.to_nat (Z.min 0 _)) with 0%nat in Hpre by lia.
  replace (Z.to_nat _) with (String.length "/hello.") in Hpre
    by (simpl; lia).
  apply substring_prefix_inv in Hpre as [s ->]; [| simpl; lia].
  exists s. split; [| done]. intros ->. simpl in Hlen. lia.
Qed.

(** The loop answers for the first key that spells the path, which is the
    suffix itself when it is a key. *)
Lemma getattr_loop_suffixed (s : string) (exts : list string) :
  getattr_loop self ("/hello." +:+ s) exts
  = if decide (s ∈ exts)
    then Some (bind (getitem tbl s) (fun c => Return (file_attr (len c))))
    else None.
Proof.
  induction exts as [| ext exts IH]; simpl.
  - destruct (decide (s ∈ [])) as [H | H]; [| done].
    by apply elem_of_nil in H.
  - destruct (decide (_ = _)) as [Heq | Hne].
    + assert (s = ext) as <- by (by injection Heq).
      rewrite decide_True; [done | by left].
    + rewrite IH.
      destruct (decide (s ∈ exts)) as [Hin | Hnin].
      * rewrite decide_True; [done | by right].
      * rewrite decide_False; [done |].
        intros [-> | ?]%elem_of_cons; [by apply Hne | done].
Qed.

Lemma getattr_suffixed (s : string) :
  getattr self ("/hello" +:+ "." +:+ s) handle
  = match dict_get tbl s with
    | Some c =>
        if decide (s = "") then Raise (FuseOSError ENOENT)
        else Return (file_attr (len c))
    | None => Raise (FuseOSError ENOENT)
    end.
Proof.
  unfold getattr. rewrite decide_False by done.
  rewrite decide_False by done.
  destruct (decide (s = "")) as [-> | Hs].
  - simpl. by destruct (dict_get tbl "").
  - rewrite has_dot_prefix_suffixed by done.
    change ("/hello" +:+ "." +:+ s) with ("/hello." +:+ s).
    rewrite getattr_loop_suffixed. simpl content_by_format.
    destruct (dict_get tbl s) as [c |] eqn:Hget.
    + rewrite decide_True by (apply dict_get_keys; eauto).
      unfold getitem. by rewrite Hget.
    + rewrite decide_False; [done |]. by apply dict_get_None_keys.
Qed.

Lemma read_suffixed (s : string) (size offset fh : Z) :
  read self ("/hello" +:+ "." +:+ s) size offset fh
  = match dict_get tbl s with
    | Some c =>
        if decide (s = "") then Raise (FuseOSError ENOENT) else Return c
    | None => Raise (FuseOSError ENOENT)
    end.
Proof.
  unfold read. rewrite decide_False by done.
  destruct (decide (s = "")) as [-> | Hs].
  - simpl. by destruct (dict_get tbl "").
  - rewrite has_dot_prefix_suffixed by done.
    simpl hello_path.
    change ("/hello" +:+ "." +:+ s) with ("/hello." +:+ s).
    change ("/hello" +:+ ".") with "/hello.".
    rewrite (str_slice_suffix "/hello." s). simpl content_by_format.
    unfold contains, getitem.
    destruct (dict_get tbl s) as [c |] eqn:Hget.
    + rewrite bool_decide_eq_true_2 by eauto. done.
    + rewrite bool_decide_eq_false_2; [done |]. by intros [? ?].
Qed.

(** A path that is neither the root nor the path of a synthetic file does
    not exist. *)
Lemma getattr_not_served (p : string) :
  p <> "/" -> p ∉ served self ->
  getattr self p handle = Raise (FuseOSError ENOENT).
Proof.
  intros Hroot Hserved. unfold served in Hserved.
  rewrite not_elem_of_cons in Hserved. destruct Hserved as [Hbase Hsuf].
  destruct (has_dot_prefix self p) eqn:Hpre.
  - apply has_dot_prefix_inv in Hpre as (s & Hs & ->).
    etrans; [apply (getattr_suffixed s) |].
    destruct (dict_get tbl s) eqn:Hget; [| done].
    exfalso. apply Hsuf. apply list_elem_of_fmap. exists s. split; [done |].
    apply dict_get_keys. simpl. eauto.
  - unfold getattr. rewrite !decide_False by done. by rewrite Hpre.
Qed.

Lemma read_not_served (p : string) (size offset fh : Z) :
  p ∉ served self -> read self p size offset fh = Raise (FuseOSError ENOENT).
Proof.
  intros Hserved. unfold served in Hserved.
  rewrite not_elem_of_cons in Hserved. destruct Hserved as [Hbase Hsuf].
  destruct (has_dot_prefix self p) eqn:Hpre.
  - apply has_dot_prefix_inv in Hpre as (s & Hs & ->).
    etrans; [apply (read_suffixed s) |].
    destruct (dict_get tbl s) eqn:Hget; [| done].
    exfalso. apply Hsuf. apply list_elem_of_fmap. exists s. split; [done |].
    apply dict_get_keys. simpl. eauto.
  - unfold read. rewrite !decide_False by done. by rewrite Hpre.
Qed.

End Classification.

(** ** The virtual providers: the contract *)

Section VirtualProviders.

Import FormatFS.

Lemma cls_with_formats :
  cls = with_formats (content_by_format cls) (default_format cls).
Proof. reflexivity. Qed.

Lemma registered_nonempty (f : string) (payload : bytes) :
  dict_get (content_by_format cls) f = Some payload -> f <> "".
Proof. intros Hget ->. discriminate Hget. Qed.

(** In [hello_fs.py] a read is the requested window of the payload. *)
Lemma HelloFS_read_window (size offset fh : Z) :
  0 <= offset -> 0 <= size ->
  HelloFS.read HelloFS.hello_path size offset fh
  = Return (take (Z.to_nat size) (drop (Z.to_nat offset) HelloFS.hello_str)).
Proof.
  intros Ho Hs. unfold HelloFS.read. rewrite decide_False by auto.
  by rewrite bytes_slice_window.
Qed.

Lemma HelloFS_read_past_end (size offset fh : Z) :
  0 <= size -> len HelloFS.hello_str <= offset ->
  HelloFS.read HelloFS.hello_path size offset fh = Return [].
Proof.
  intros Hs Ho. unfold HelloFS.read. rewrite decide_False by auto.
  by rewrite bytes_slice_past_end.
Qed.

(** In [format_fs.py] a read of a synthetic file is its whole payload,
    whatever the offset and the size. *)
Lemma FormatFS_read_whole (f : string) (payload : bytes) (size offset fh : Z) :
  dict_get (content_by_format cls) f = Some payload ->
  read cls (hello_path cls +:+ "." +:+ f) size offset fh = Return payload.
Proof.
  intros Hget. etrans; [apply (read_suffixed (content_by_format cls) "txt" f) |].
  rewrite Hget. rewrite decide_False; [done |].
  by eapply registered_nonempty.
Qed.

(** C1 (the code departs from it): a read must be the slice
    [payload[offset : offset+size]], empty from the end of the payload on.
    [FormatFS.read] on the base path with [size = 5], [offset = 0] returns
    all 14 bytes where the slice is [b'Hello'], and with [offset = 14] it
    returns the 14 bytes again where the slice is empty; [HelloFS.read]
    returns the slice on the same inputs. *)
Theorem FormatFS_read_ignores_offset_and_size :
  let payload := b ("Hello, World!" +:+ nl) in
  read cls "/hello" 5 0 0 = Return payload /\
  bytes_slice payload (Some 0) (Some (0 + 5)) = b "Hello" /\
  HelloFS.read "/hello" 5 0 0 = Return (b "Hello") /\
  read cls "/hello" 5 14 0 = Return payload /\
  len payload <= 14 /\
  HelloFS.read "/hello" 5 14 0 = Return [] /\
  read cls "/hello.json" 4 1 0
  = Return (b ("{" +:+ dq +:+ "message" +:+ dq +:+ ": " +:+ dq
               +:+ "Hello, World!" +:+ dq +:+ "}" +:+ nl)).
Proof. repeat split; try reflexivity; vm_compute; discriminate. Qed.

Lemma lower_served_inj (p q : string) :
  p ∈ "/" :: served cls -> q ∈ served cls -> lower p = lower q -> p = q.
Proof.
  intros Hp Hq. vm_compute in Hp, Hq.
  repeat (apply elem_of_cons in Hp as [-> | Hp]);
    try (by apply elem_of_nil in Hp);
    repeat (apply elem_of_cons in Hq as [-> | Hq]);
    try (by apply elem_of_nil in Hq);
    (reflexivity || (vm_compute; discriminate)).
Qed.

Lemma unmatched_not_served (p : string) :
  unmatched cls p -> p <> "/" /\ p ∉ served cls.
Proof.
  intros [s Hs | c t Hc | p' q Hq Hne Hlow].
  - split; [done |]. intros Hin. unfold served in Hin.
    apply elem_of_cons in Hin as [Hin | Hin]; [done |].
    apply list_elem_of_fmap in Hin as (ext & Heq & Hext).
    apply append_inj_r, append_inj_r in Heq. subst ext.
    apply dict_get_keys in Hext as [? ?]. congruence.
  - split; [done |]. intros Hin. vm_compute in Hin.
    repeat (apply elem_of_cons in Hin as [Hin | Hin]);
      try (by apply elem_of_nil in Hin); by simplify_eq.
  - split.
    + intros ->. apply Hne, lower_served_inj; [by left | done | done].
    + intros Hin. apply Hne, lower_served_inj; [by right | done | done].
Qed.

(** C2: for a suffix that is not a key of the content table, attribute
    lookup and read on [base + "." + suffix] fail with ENOENT, never
    answering with the default format; so do they on a path that runs the
    base name on without a dot ([/hello2]) and on a synthetic file's path
    written in another letter case. *)
Theorem unmatched_path_is_not_found
    (path : string) (handle : option Z) (size offset fh : Z) :
  unmatched cls path ->
  getattr cls path handle = Raise (FuseOSError ENOENT) /\
  read cls path size offset fh = Raise (FuseOSError ENOENT) /\
  kind_of (FuseOSError ENOENT) = NotFound.
Proof.
  intros [Hroot Hserved]%unmatched_not_served. split; [| split; [| done]].
  - by apply (getattr_not_served (content_by_format cls) "txt" handle).
  - by apply (read_not_served (content_by_format cls) "txt").
Qed.

Lemma unmatched_path_is_not_found_witness :
  (getattr cls "/hello.yaml" None = Raise (FuseOSError ENOENT) /\
   read cls "/hello.yaml" 29 0 0 = Raise (FuseOSError ENOENT) /\
   kind_of (FuseOSError ENOENT) = NotFound) /\
  (getattr cls "/hello2" None = Raise (FuseOSError ENOENT) /\
   read cls "/hello2" 14 0 0 = Raise (FuseOSError ENOENT) /\
   kind_of (FuseOSError ENOENT) = NotFound) /\
  (getattr cls "/hello.JSON" None = Raise (FuseOSError ENOENT) /\
   read cls "/hello.JSON" 29 0 0 = Raise (FuseOSError ENOENT) /\
   kind_of (FuseOSError ENOENT) = NotFound).
Proof.
  split; [| split].
  - apply (unmatched_path_is_not_found "/hello.yaml" None 29 0 0).
    apply (unmatched_suffix cls "yaml"). reflexivity.
  - apply (unmatched_path_is_not_found "/hello2" None 14 0 0).
    apply (unmatched_extension cls "2"%char ""). discriminate.
  - apply (unmatched_path_is_not_found "/hello.JSON" None 29 0 0).
    apply (unmatched_case cls "/hello.JSON" "/hello.json").
    + vm_compute. do 3 right. left.
    + discriminate.
    + reflexivity.
Defined.

(** What [open] does get right in both providers: it succeeds only on the
    base path with a read-only access mode, and returns handle 0. *)
Lemma HelloFS_open_Return (path : string) (flags h : Z) :
  HelloFS.open path flags = Return h ->
  path = HelloFS.hello_path /\ Z.land flags 3 = O_RDONLY /\ h = 0.
Proof.
  unfold HelloFS.open. repeat case_decide; intros [=]; subst.
  by repeat split.
Qed.

Lemma FormatFS_open_Return (self : attrs) (path : string) (flags h : Z) :
  open self path flags = Return h ->
  path = hello_path self /\ Z.land flags 3 = O_RDONLY /\ h = 0.
Proof.
  unfold open. repeat case_decide; intros [=]; subst.
  by repeat split.
Qed.

Lemma open_base_for_writing (self : attrs) (flags : Z) :
  Z.land flags 3 = O_WRONLY \/ Z.land flags 3 = O_RDWR ->
  HelloFS.open HelloFS.hello_path flags = Raise (FuseOSError EPERM) /\
  open self (hello_path self) flags = Raise PermissionError.
Proof.
  intros Hw.
  assert (Z.land flags (Z.lor (Z.lor O_RDONLY O_WRONLY) O_RDWR) <> O_RDONLY)
    as Hne.
  { change (Z.lor (Z.lor O_RDONLY O_WRONLY) O_RDWR) with 3.
    destruct Hw as [-> | ->]; done. }
  unfold HelloFS.open, open. split.
  - rewrite decide_False by auto. by rewrite decide_True.
  - rewrite decide_False by auto. by rewrite decide_True.
Qed.

(** C4 (the code departs from it): [open] with write intent on a synthetic
    path must fail with PermissionDenied.  [/hello.json] is a synthetic
    file of [format_fs.py] (attribute lookup and read answer for it), yet
    [FormatFS.open] on it with [O_WRONLY] or [O_RDWR] raises
    [FileNotFoundError], which is NotFound; on the base path both providers
    do refuse the write. *)
Theorem FormatFS_open_suffixed_for_writing :
  getattr cls "/hello.json" None = Return (file_attr 29) /\
  is_Some (dict_get (content_by_format cls) "json") /\
  open cls "/hello.json" O_WRONLY = Raise FileNotFoundError /\
  open cls "/hello.json" O_RDWR = Raise FileNotFoundError /\
  kind_of FileNotFoundError = NotFound /\
  open cls "/hello" O_WRONLY = Raise PermissionError /\
  kind_of PermissionError = PermissionDenied /\
  HelloFS.open "/hello" O_RDWR = Raise (FuseOSError EPERM) /\
  kind_of (FuseOSError EPERM) = PermissionDenied.
Proof. repeat split; try reflexivity. by eexists. Qed.

(** C5: for every registered format the size attribute lookup reports for
    [base + "." + format] is the length of that format's payload, and for
    the bare base path it is the length of the default format's payload
    (of [hello_str] in [hello_fs.py]). *)
Theorem reported_size_is_payload_length
    (f : string) (payload : bytes) (handle : option Z) :
  dict_get (content_by_format cls) f = Some payload ->
  (exists st,
     getattr cls (hello_path cls +:+ "." +:+ f) handle = Return st /\
     st !! "st_size" = Some (len payload)) /\
  (exists st default_payload,
     dict_get (content_by_format cls) (default_format cls)
     = Some default_payload /\
     getattr cls (hello_path cls) handle = Return st /\
     st !! "st_size" = Some (len default_payload)) /\
  (exists st,
     HelloFS.getattr HelloFS.hello_path handle = Return st /\
     st !! "st_size" = Some (len HelloFS.hello_str)).
Proof.
  intros Hget. split; [| split].
  - exists (file_attr (len payload)). split; [| done].
    etrans; [apply (getattr_suffixed (content_by_format cls) "txt" handle f) |].
    rewrite Hget. rewrite decide_False; [done |].
    by eapply registered_nonempty.
  - by eexists _, _.
  - by eexists.
Qed.

Lemma reported_size_is_payload_length_witness :
  let payload := b ("<message>Hello, World!</message>" +:+ nl) in
  (exists st,
     getattr cls (hello_path cls +:+ "." +:+ "xml") None = Return st /\
     st !! "st_size" = Some (len payload)) /\
  (exists st default_payload,
     dict_get (content_by_format cls) (default_format cls)
     = Some default_payload /\
     getattr cls (hello_path cls) None = Return st /\
     st !! "st_size" = Some (len default_payload)) /\
  (exists st,
     HelloFS.getattr HelloFS.hello_path None = Return st /\
     st !! "st_size" = Some (len HelloFS.hello_str)).
Proof.
  intros payload. apply (reported_size_is_payload_length "xml" payload None).
  reflexivity.
Defined.

(** C6: whatever formats are registered, listing the root gives the three
    names [.], [..] and the base name, in this order and with no suffixed
    name among them; listing any other path fails with NotFound. *)
Theorem readdir_lists_only_base_name
    (tbl : dict bytes) (dflt : string) (path : string) (fh : Z) :
  path <> "/" ->
  readdir (with_formats tbl dflt) "/" fh = Return [ "."; ".."; "hello" ] /\
  HelloFS.readdir "/" fh = Return [ "."; ".."; "hello" ] /\
  fails_with (readdir (with_formats tbl dflt) path fh) NotFound /\
  fails_with (HelloFS.readdir path fh) NotFound.
Proof.
  intros Hpath. split; [done | split; [done |]].
  unfold readdir, HelloFS.readdir. rewrite !decide_False by done.
  split; eexists; (split; [done |]); done.
Qed.

Lemma readdir_lists_only_base_name_witness :
  readdir cls "/" 0 = Return [ "."; ".."; "hello" ] /\
  HelloFS.readdir "/" 0 = Return [ "."; ".."; "hello" ] /\
  fails_with (readdir cls "/hello" 0) NotFound /\
  fails_with (HelloFS.readdir "/hello" 0) NotFound.
Proof.
  apply (readdir_lists_only_base_name
           (content_by_format cls) (default_format cls) "/hello" 0).
  discriminate.
Defined.

(** C9 as the specification words it (mode = read and execute for all,
    0o555, plus the directory bit) does not hold: the mode of the root also
    carries the owner's write bit. *)
Lemma root_mode_is_not_0o555 :
  ~ (exists st,
       HelloFS.getattr "/" None = Return st /\
       st !! "st_mode" = Some (Z.lor (oct "555") (oct "040000")) /\
       st !! "st_nlink" = Some 2) /\
  ~ (exists st,
       getattr cls "/" None = Return st /\
       st !! "st_mode" = Some (Z.lor (oct "555") (oct "040000")) /\
       st !! "st_nlink" = Some 2).
Proof.
  split; intros (st & Hst & Hmode & _); injection Hst as <-;
    vm_compute in Hmode; discriminate.
Qed.

(** C9, amended: attribute lookup on the root returns, in both providers
    and whatever formats are registered, a directory (type bits
    [S_IFDIR]) with permission bits 0o755 (read, write and execute for the
    owner; read and execute for group and others), link count 2 and no
    size. *)
Theorem root_is_a_directory_with_two_links
    (tbl : dict bytes) (dflt : string) (handle : option Z) :
  let mode := Z.lor (oct "755") (oct "040000") in
  let st : gmap string Z := {[ "st_mode" := mode; "st_nlink" := 2 ]} in
  HelloFS.getattr "/" handle = Return st /\
  getattr (with_formats tbl dflt) "/" handle = Return st /\
  st !! "st_mode" = Some mode /\
  Z.land mode (oct "170000") = oct "040000" /\
  Z.land mode (oct "7777") = oct "755" /\
  Z.land mode (oct "555") = oct "555" /\
  st !! "st_nlink" = Some 2 /\
  st !! "st_size" = None.
Proof. repeat split. Qed.

(** C10: in [format_fs.py], [open] returns (handle 0) only for the bare
    base path; on [base + "." + format] it raises [FileNotFoundError]
    whatever the flags, although attribute lookup and read answer for that
    path. *)
Theorem suffixed_path_readable_but_not_openable
    (f : string) (payload : bytes) (handle : option Z)
    (flags size offset fh : Z) :
  dict_get (content_by_format cls) f = Some payload ->
  let path := hello_path cls +:+ "." +:+ f in
  open cls path flags = Raise FileNotFoundError /\
  kind_of FileNotFoundError = NotFound /\
  getattr cls path handle = Return (file_attr (len payload)) /\
  read cls path size offset fh = Return payload /\
  open cls (hello_path cls) O_RDONLY = Return 0 /\
  (forall p fl h, open cls p fl = Return h -> p = hello_path cls /\ h = 0).
Proof.
  intros Hget path. pose proof (registered_nonempty _ _ Hget) as Hf.
  split; [| split; [done | split; [| split; [| split; [done |]]]]].
  - unfold open. rewrite decide_True; [done |]. subst path. simpl.
    by destruct f.
  - etrans; [apply (getattr_suffixed (content_by_format cls) "txt" handle f) |].
    rewrite Hget. by rewrite decide_False.
  - by apply FormatFS_read_whole.
  - intros p fl h Hopen. apply FormatFS_open_Return in Hopen. tauto.
Qed.

Lemma suffixed_path_readable_but_not_openable_witness :
  let payload := b ("{" +:+ dq +:+ "message" +:+ dq +:+ ": " +:+ dq
                    +:+ "Hello, World!" +:+ dq +:+ "}" +:+ nl) in
  let path := hello_path cls +:+ "." +:+ "json" in
  open cls path O_RDONLY = Raise FileNotFoundError /\
  kind_of FileNotFoundError = NotFound /\
  getattr cls path None = Return (file_attr (len payload)) /\
  read cls path 29 0 0 = Return payload /\
  open cls (hello_path cls) O_RDONLY = Return 0 /\
  (forall p fl h, open cls p fl = Return h -> p = hello_path cls /\ h = 0).
Proof.
  intros payload.
  apply (suffixed_path_readable_but_not_openable
           "json" payload None O_RDONLY 29 0 0).
  reflexivity.
Defined.

End VirtualProviders.

(** ** The passthrough provider: the access gate and path rewriting *)

Section Passthrough.

Import WrenchFS.

Context (realpath : string -> string).
Context (inherited : string -> handler).

(** C3: with credential ['password1'] construction selects the benign
    root and with ['supersecret'] the secret root, each as [realpath] gives
    it (an absolute path); with any other credential construction raises
    [ValueError] and yields no instance, so no request is ever served
    without one of the two roots. *)
Theorem credential_selects_root (password mount : string) :
  (forall p, is_absolute (realpath p)) ->
  __init__ realpath "password1" mount
  = Return ({| root := realpath "./benign"; rwlock := Unlocked |},
            [ "File system mounted at: " +:+ mount ]) /\
  __init__ realpath "supersecret" mount
  = Return ({| root := realpath "./secret"; rwlock := Unlocked |},
            [ "File system mounted at: " +:+ mount ]) /\
  is_absolute (realpath "./benign") /\
  is_absolute (realpath "./secret") /\
  (password <> "password1" -> password <> "supersecret" ->
   __init__ realpath password mount
   = Raise (ValueError
       "Invalid password provided. Use 'password1' or 'supersecret'.")) /\
  (forall inst out,
     __init__ realpath password mount = Return (inst, out) ->
     password = "password1" /\ root inst = realpath "./benign" \/
     password = "supersecret" /\ root inst = realpath "./secret").
Proof.
  intros Habs. repeat split; try done.
  - intros H1 H2. unfold __init__. by rewrite !decide_False.
  - intros inst out. unfold __init__.
    repeat case_decide; simpl; intros [=]; subst; auto.
Qed.

(** The dispatcher rewrites the path it is given, and only that one. *)
Lemma call_rewrites_first_path
    (self : self_t) (op path : string) (args : list value) :
  __call__ self inherited op path args
  = super_call self inherited op (VStr (root self +:+ path) :: args).
Proof. reflexivity. Qed.

(** The structural operations that take one path are the backing primitive
    on the rewritten path, with the other arguments as they came. *)
Lemma single_path_delegations
    (self : self_t) (path : string) (args : list value) (mode : value) :
  let p := VStr (root self +:+ path) in
  __call__ self inherited "mkdir" path args = os "os.mkdir" (p :: args) /\
  __call__ self inherited "mknod" path args = os "os.mknod" (p :: args) /\
  __call__ self inherited "unlink" path args = os "os.unlink" (p :: args) /\
  __call__ self inherited "rmdir" path args = os "os.rmdir" (p :: args) /\
  __call__ self inherited "chmod" path args = os "os.chmod" (p :: args) /\
  __call__ self inherited "chown" path args = os "os.chown" (p :: args) /\
  __call__ self inherited "utimens" path args = os "os.utime" (p :: args) /\
  __call__ self inherited "create" path [mode]
  = os "os.open" [p; VInt (Z.lor (Z.lor O_WRONLY O_CREAT) O_TRUNC); mode].
Proof. repeat split. Qed.

(** [link] rewrites its second path itself; [symlink] stores the text of
    the link as it came. *)
Lemma link_rewrites_both_paths
    (self : self_t) (env : call -> result value) (target source : string) :
  (run env (__call__ self inherited "link" target [VStr source])).1.*1
  = [ Os "os.link"
        [VStr (root self +:+ source); VStr (root self +:+ target)] ] /\
  (run env (__call__ self inherited "symlink" target [VStr source])).1.*1
  = [ Os "os.symlink" [VStr source; VStr (root self +:+ target)] ].
Proof. split; reflexivity. Qed.

(** [truncate] opens the rewritten path, truncates and closes. *)
Lemma truncate_on_rewritten_path
    (self : self_t) (path : string) (length f : value) :
  let env := fun c =>
    match c with Os "open" _ => Return f | _ => Return VNone end in
  run env (__call__ self inherited "truncate" path [length])
  = ([ (Os "open" [VStr (root self +:+ path); VStr "r+"], Return f);
       (Os "file.truncate" [f; length], Return VNone);
       (Os "file.close" [f], Return VNone) ],
     Return VNone).
Proof. reflexivity. Qed.

(** C7 (the code departs from it): every path argument of a structural
    operation must reach the backing primitive rewritten under the root, in
    particular both paths of [rename].  With root [/srv/wrenchfs/benign],
    [rename('/a.txt', '/b.txt')] calls [os.rename] with the old path
    rewritten and the new path [/b.txt] as it came, outside the root;
    [link] on the same two paths rewrites both. *)
Theorem rename_leaves_new_path_unrewritten :
  let self := {| root := "/srv/wrenchfs/benign"; rwlock := Unlocked |} in
  __call__ self inherited "rename" "/a.txt" [VStr "/b.txt"]
  = os "os.rename" [VStr "/srv/wrenchfs/benign/a.txt"; VStr "/b.txt"] /\
  VStr "/b.txt" <> VStr (root self +:+ "/b.txt") /\
  (forall (s : self_t) (old new : string),
     __call__ s inherited "rename" old [VStr new]
     = os "os.rename" [VStr (root s +:+ old); VStr new]) /\
  (forall env,
     (run env (__call__ self inherited "link" "/b.txt" [VStr "/a.txt"])).1.*1
     = [ Os "os.link" [VStr "/srv/wrenchfs/benign/a.txt";
                        VStr "/srv/wrenchfs/benign/b.txt"] ]).
Proof. repeat split. discriminate. Qed.

End Passthrough.

Lemma credential_selects_root_witness :
  let realpath := fun p => "/srv/wrenchfs" +:+ str_slice p (Some 1) None in
  WrenchFS.__init__ realpath "password1" "/mnt"
  = Return ({| WrenchFS.root := "/srv/wrenchfs/benign";
               WrenchFS.rwlock := WrenchFS.Unlocked |},
            [ "File system mounted at: /mnt" ]) /\
  WrenchFS.__init__ realpath "supersecret" "/mnt"
  = Return ({| WrenchFS.root := "/srv/wrenchfs/secret";
               WrenchFS.rwlock := WrenchFS.Unlocked |},
            [ "File system mounted at: /mnt" ]) /\
  WrenchFS.is_absolute (realpath "./benign") /\
  WrenchFS.is_absolute (realpath "./secret") /\
  ("letmein" <> "password1" -> "letmein" <> "supersecret" ->
   WrenchFS.__init__ realpath "letmein" "/mnt"
   = Raise (ValueError
       "Invalid password provided. Use 'password1' or 'supersecret'.")) /\
  (forall inst out,
     WrenchFS.__init__ realpath "letmein" "/mnt" = Return (inst, out) ->
     "letmein" = "password1" /\ WrenchFS.root inst = realpath "./benign" \/
     "letmein" = "supersecret" /\ WrenchFS.root inst = realpath "./secret").
Proof.
  intros realpath.
  apply (credential_selects_root realpath "letmein" "/mnt").
  intros p. reflexivity.
Defined.

(** ** The passthrough provider: the handle serialiser *)

Section Serialiser.

Import WrenchFS.

Lemma shaped_then {A B} (t : tag) (p : prog A) (k : result A -> prog B) :
  shaped t p -> (forall r, shaped TOut (k r)) -> shaped t (then_ p k).
Proof.
  intros Hp Hk. induction Hp; simpl; try (by constructor); auto.
Qed.

Lemma shaped_bind {A B} (p : prog A) (k : A -> prog B) :
  shaped TOut p -> (forall a, shaped TOut (k a)) -> shaped TOut (p ≫= k).
Proof.
  intros Hp Hk. apply shaped_then; [done |].
  intros [a | e]; [apply Hk | constructor].
Qed.

Lemma shaped_os_call (fn : string) (xs : list value) :
  moves_offset fn = false -> shaped TOut (os fn xs).
Proof. intros Hfn. apply shaped_os; [done |]. intros a. constructor. Qed.

Lemma shaped_project (st : list (string * value)) (names : list string) :
  shaped TOut (project st names).
Proof.
  induction names as [| key names IH]; simpl; [constructor |].
  destruct (dict_get st key); [| constructor].
  apply shaped_bind; [done |]. intros rest. constructor.
Qed.

Lemma shaped_attributes_of (st : value) (names : list string) :
  shaped TOut (attributes_of st names).
Proof.
  destruct st; try constructor.
  apply shaped_bind; [apply shaped_project |]. intros d. constructor.
Qed.

(** [with self.rwlock] around "reposition, then transfer once". *)
Lemma shaped_locked_transfer (fh offset x : value) (fn : string) :
  is_transfer fn = true ->
  shaped TOut
    (with_rwlock (_ ← os "os.lseek" [fh; offset; VInt 0]; os fn [fh; x])).
Proof.
  intros Hfn. apply shaped_acquire. simpl. apply shaped_seek.
  - intros v. simpl. apply shaped_transfer; [done |].
    intros a. simpl. apply shaped_release. constructor.
  - intros e. simpl. apply shaped_release. constructor.
Qed.

Ltac shape_step :=
  first
    [ apply shaped_done
    | apply shaped_os_call; reflexivity
    | apply shaped_attributes_of
    | apply shaped_locked_transfer; reflexivity
    | apply shaped_bind; [| intros ?]
    | apply shaped_then; [| intros ?]
    | apply shaped_os; [reflexivity | intros ?]
    | match goal with
      | |- shaped _ (match ?x with _ => _ end) => destruct x
      | |- shaped _ (if ?x then _ else _) => destruct x
      end ].

Ltac shape := repeat (shape_step; simpl).

Context (self : self_t).

(** No attribute of the class repositions or transfers outside the lock. *)
Lemma shaped_methods (name : string) (h : handler) (xs : list value) :
  dict_get (methods self) name = Some h -> shaped TOut (h xs).
Proof.
  unfold methods. simpl.
  repeat (case_decide; [intros [= <-] |]); try discriminate.
  all: unfold access, chmod, chown, create, flush, fsync, getattr,
         getattr_body, getxattr, link, listxattr, mkdir, mknod, open,
         readlink, rmdir, unlink, utimens, rename, read, readdir, release,
         statfs, symlink, truncate, truncate_body, finally, write, str_add,
         raise.
  all: shape.
Qed.

Context (inherited : string -> handler).
Hypothesis inherited_outside :
  forall name xs, shaped TOut (inherited name xs).

Lemma shaped_call (name path : string) (xs : list value) :
  shaped TOut (__call__ self inherited name path xs).
Proof.
  unfold __call__, super_call.
  destruct (dict_get (methods self) name) as [h |] eqn:Hget.
  - by eapply shaped_methods.
  - apply inherited_outside.
Qed.

Lemma shaped_serve (reqs : list request) :
  shaped TOut (serve self inherited reqs).
Proof.
  induction reqs as [| q reqs IH]; simpl; [constructor |].
  apply shaped_then; [apply shaped_call | done].
Qed.

Lemma inv_start (work : list (list request)) :
  inv Free (start self inherited work).
Proof.
  split; [done |]. intros j p. simpl. rewrite list_lookup_fmap.
  destruct (work !! j); intros [=]; subst. apply shaped_serve.
Qed.

Lemma tag_of_TSeek (ph : phase) (i : nat) :
  tag_of ph i = TSeek -> ph = Seeking i.
Proof. destruct ph; simpl; try case_decide; intros; by simplify_eq. Qed.

Lemma tag_of_TXfer (ph : phase) (i : nat) (fh : value) :
  tag_of ph i = TXfer fh -> ph = Transferring i fh.
Proof. destruct ph; simpl; try case_decide; intros; by simplify_eq. Qed.

Lemma tag_of_TRel (ph : phase) (i : nat) :
  tag_of ph i = TRel -> ph = Releasing i.
Proof. destruct ph; simpl; try case_decide; intros; by simplify_eq. Qed.

Lemma inv_update (ph ph' : phase) (s s' : self_t)
    (ts : list (prog value)) (i : nat) (q : prog value) :
  inv ph {| obj := s; threads := ts |} ->
  is_Some (ts !! i) ->
  rwlock s' = lock_of ph' ->
  shaped (tag_of ph' i) q ->
  (forall j, j <> i -> tag_of ph' j = tag_of ph j) ->
  inv ph' {| obj := s'; threads := <[i := q]> ts |}.
Proof.
  intros [_ Hts] Hi Hlock Hq Hother. split; [done |].
  intros j p. simpl. destruct (decide (j = i)) as [-> | Hne].
  - rewrite list_lookup_insert_eq by (by apply lookup_lt_is_Some).
    by intros [= <-].
  - rewrite list_lookup_insert_ne by done. intros Hj.
    rewrite Hother by done. by apply Hts.
Qed.

(** Every step of the pool is a move of the monitor, and keeps the
    invariant. *)
Lemma step_monitor (ph : phase) (P P' : pool) (l : label) :
  inv ph P -> step P l P' ->
  exists ph', monitor ph l ph' /\ inv ph' P'.
Proof.
  intros Hinv Hstep.
  destruct Hstep as [s ts i k Hi Hlk | s ts i k Hi Hlk | s ts i k Hi Hlk
                    | s ts i fn xs k a Hi];
    pose proof Hinv as [Hlock Hts]; simpl in Hlock;
    pose proof (Hts i _ Hi) as Hsh; simpl in Hsh.
  - assert (ph = Free) as -> by (destruct ph; simpl in *; congruence).
    inversion Hsh as [| | k' Hk | | |]; subst.
    exists (Seeking i). split; [constructor |].
    eapply inv_update; eauto; simpl.
    + by rewrite decide_True.
    + intros j Hj. by rewrite decide_False.
  - inversion Hsh as [| | | | | k' Hk Htag]; subst.
    symmetry in Htag. apply tag_of_TRel in Htag as ->.
    exists Free. split; [constructor |].
    eapply inv_update; eauto; simpl.
    intros j Hj. by rewrite decide_False.
  - inversion Hsh as [| | | | | k' Hk Htag]; subst.
    symmetry in Htag. apply tag_of_TRel in Htag as ->.
    simpl in Hlock. congruence.
  - inversion Hsh as [| fn' xs' k' Hfn Hk Htag | | fh offset k' Hok Hfail Htag
                      | fh fn' x k' Hfn Hk Htag |]; subst.
    + exists ph. split; [by constructor |].
      eapply inv_update; eauto. rewrite <- Htag. apply Hk.
    + symmetry in Htag. apply tag_of_TSeek in Htag as ->.
      destruct a as [v | e].
      * exists (Transferring i fh). split; [constructor |].
        eapply inv_update; eauto; simpl.
        -- rewrite decide_True by done. apply Hok.
        -- intros j Hj. by rewrite !decide_False.
      * exists (Releasing i). split; [constructor |].
        eapply inv_update; eauto; simpl.
        -- rewrite decide_True by done. apply Hfail.
        -- intros j Hj. by rewrite !decide_False.
    + symmetry in Htag. apply tag_of_TXfer in Htag as ->.
      exists (Releasing i). split; [by constructor |].
      eapply inv_update; eauto; simpl.
      * rewrite decide_True by done. apply Hk.
      * intros j Hj. by rewrite !decide_False.
Qed.

Lemma steps_accepted (ph : phase) (P P' : pool) (tr : list label) :
  inv ph P -> steps P tr P' -> accepted ph tr.
Proof.
  intros Hinv Hsteps. revert ph Hinv.
  induction Hsteps as [P | P l P' tr P'' Hstep Hsteps IH]; intros ph Hinv.
  - constructor.
  - destruct (step_monitor ph P P' l Hinv Hstep) as (ph' & Hmon & Hinv').
    econstructor; [done |]. by apply IH.
Qed.

Lemma accepted_app (ph : phase) (pre tr : list label) :
  accepted ph (pre ++ tr) -> exists ph', accepted ph' tr.
Proof.
  revert ph. induction pre as [| l pre IH]; intros ph Hacc; [by eexists |].
  inversion Hacc; subst. eauto.
Qed.

Lemma transfer_moves_offset (fn : string) :
  is_transfer fn = true -> moves_offset fn = true.
Proof.
  unfold is_transfer, moves_offset. rewrite !bool_decide_eq_true.
  intros Hin. apply elem_of_cons. by right.
Qed.

(** Once a handle is repositioned, nothing but its transfer moves an
    offset. *)
Lemma accepted_transferring
    (i : nat) (fh : value) (mid : list label) (l : label) (post : list label) :
  accepted (Transferring i fh) (mid ++ l :: post) ->
  quiet mid -> offset_label l ->
  exists fn x a, l = (i, Os fn [fh; x], a) /\ is_transfer fn = true.
Proof.
  induction mid as [| m mid IH]; simpl; intros Hacc Hquiet Hl.
  - inversion Hacc as [| ph l' ph' tr Hmon Hrest]; subst.
    inversion Hmon; subst; [by eauto |]. simpl in Hl. congruence.
  - apply Forall_cons in Hquiet as [Hm Hquiet].
    inversion Hacc as [| ph l' ph' tr Hmon Hrest]; subst.
    inversion Hmon; subst; [| by apply IH].
    exfalso. apply Hm. simpl. by apply transfer_moves_offset.
Qed.

Lemma accepted_seek_then_transfer (ph : phase) (tr : list label) :
  accepted ph tr -> seek_then_transfer tr.
Proof.
  intros Hacc pre i fh offset v mid l post -> Hquiet Hl.
  apply accepted_app in Hacc as [ph' Hacc].
  inversion Hacc as [| ph1 l1 ph2 tr1 Hmon Hrest]; subst.
  inversion Hmon; subst; [by eapply accepted_transferring |].
  discriminate.
Qed.

(** A transfer happens in the state its own reposition left. *)
Lemma accepted_before_transfer (ph : phase) (pre : list label)
    (i : nat) (fn : string) (xs : list value) (a : result value)
    (post : list label) :
  accepted ph (pre ++ (i, Os fn xs, a) :: post) ->
  is_transfer fn = true ->
  (exists fh x, ph = Transferring i fh /\ quiet pre /\ xs = [fh; x]) \/
  (exists pre' fh offset v mid x,
     pre = pre' ++ (i, Os "os.lseek" [fh; offset; VInt 0], Return v) :: mid
     /\ quiet mid /\ xs = [fh; x]).
Proof.
  intros Hacc Hfn. revert ph Hacc.
  induction pre as [| m pre IH]; simpl; intros ph Hacc.
  - left. inversion Hacc as [| ph1 l1 ph2 tr1 Hmon Hrest]; subst.
    apply transfer_moves_offset in Hfn as Hmoves.
    inversion Hmon; subst; try congruence; try discriminate.
    eexists _, _. repeat split. constructor.
  - inversion Hacc as [| ph1 l1 ph2 tr1 Hmon Hrest]; subst.
    destruct (IH _ Hrest)
      as [(fh & x & -> & Hquiet & ->)
         | (pre' & fh & offset & v & mid & x & -> & Hquiet & ->)].
    + inversion Hmon; subst.
      * right. by exists [], fh, offset, v, pre, x.
      * left. exists fh, x. split; [done |]. split; [| done].
        apply Forall_cons. split; [| done]. simpl. congruence.
    + right. by exists (m :: pre'), fh, offset, v, mid, x.
Qed.

Lemma accepted_transfer_after_seek (tr : list label) :
  accepted Free tr -> transfer_after_seek tr.
Proof.
  intros Hacc pre i fn xs a post -> Hfn.
  destruct (accepted_before_transfer _ _ _ _ _ _ _ Hacc Hfn)
    as [(fh & x & [=] & _) | Hseek]; done.
Qed.

(** Run on its own, the body of [read] and [write] takes the lock,
    repositions, transfers once, releases, and ends with the answer of the
    transfer; if repositioning fails it releases and ends with that
    failure. *)
Lemma locked_transfer_runs
    (fh offset x : value) (fn : string) (tr : list event) (r : result value) :
  lock_answers tr ->
  runs (with_rwlock (_ ← os "os.lseek" [fh; offset; VInt 0]; os fn [fh; x]))
    tr r
  <-> critical_section fh offset (Os fn [fh; x]) tr r.
Proof.
  intros Hlock. split.
  - intros Hruns. unfold lock_answers in Hlock.
    inversion Hruns as [| c k a tr1 r' Hruns1]; subst.
    apply Forall_cons in Hlock as [Ha Hlock]. simpl in Ha. subst a.
    simpl in Hruns1.
    inversion Hruns1 as [| c k a tr2 r' Hruns2]; subst.
    apply Forall_cons in Hlock as [_ Hlock].
    destruct a as [v | e]; simpl in Hruns2.
    + inversion Hruns2 as [| c k a tr3 r' Hruns3]; subst.
      apply Forall_cons in Hlock as [_ Hlock]. simpl in Hruns3.
      inversion Hruns3 as [| c k a' tr4 r' Hruns4]; subst.
      apply Forall_cons in Hlock as [Ha Hlock]. simpl in Ha. subst a'.
      simpl in Hruns4. inversion Hruns4; subst. constructor.
    + inversion Hruns2 as [| c k a tr3 r' Hruns3]; subst.
      apply Forall_cons in Hlock as [Ha Hlock]. simpl in Ha. subst a.
      simpl in Hruns3. inversion Hruns3; subst. constructor.
  - intros [v a | e]; repeat (apply runs_call; simpl); apply runs_done.
Qed.

(** C8 as the specification words it does not hold for [read]: when the
    underlying read delivers [b'abc'], three bytes of the four asked for,
    [read] returns those bytes, not the number 3. *)
Lemma read_returns_the_bytes_not_their_number :
  ~ (forall (path size offset fh : value) (tr : list event)
       (r : result value) (d : bytes),
       runs (read [path; size; offset; fh]) tr r ->
       lock_answers tr ->
       (Os "os.read" [fh; size], Return (VBytes d)) ∈ tr ->
       r = Return (VInt (len d))).
Proof.
  intros Hclaim.
  specialize (Hclaim (VStr "/srv/wrenchfs/benign/a.txt")
    (VInt 4) (VInt 0) (VInt 3)
    [ (Acquire, Return (VBool true));
      (Os "os.lseek" [VInt 3; VInt 0; VInt 0], Return (VInt 0));
      (Os "os.read" [VInt 3; VInt 4], Return (VBytes (b "abc")));
      (Release, Return VNone) ]
    (Return (VBytes (b "abc"))) (b "abc")).
  discriminate Hclaim.
  - repeat (apply runs_call; simpl). apply runs_done.
  - by repeat constructor.
  - do 2 right. left.
Qed.

(** C8, amended: every [read] and every [write] takes the provider's one
    lock, repositions the handle to the offset, makes exactly one
    underlying read of up to [size] bytes or one underlying write of the
    data, releases the lock, and returns what that underlying call
    returned: the bytes read for [read], the number of bytes written for
    [write], which may be fewer than asked for.  In every run of the thread
    pool, whatever the threads serve and on whatever handles, the calls that
    reposition or transfer follow the monitor: a handle's reposition and
    its transfer are never separated by another reposition or transfer. *)
Theorem read_write_serialised
    (work : list (list request)) (tr : list label) (P' : pool) :
  steps (start self inherited work) tr P' ->
  accepted Free tr /\
  seek_then_transfer tr /\
  transfer_after_seek tr /\
  (forall path size offset fh t r,
     lock_answers t ->
     runs (read [path; size; offset; fh]) t r
     <-> critical_section fh offset (Os "os.read" [fh; size]) t r) /\
  (forall path data offset fh t r,
     lock_answers t ->
     runs (write [path; data; offset; fh]) t r
     <-> critical_section fh offset (Os "os.write" [fh; data]) t r).
Proof.
  intros Hsteps.
  assert (accepted Free tr) as Hacc
    by (eapply steps_accepted; [apply inv_start | done]).
  split; [done |].
  split; [by eapply accepted_seek_then_transfer |].
  split; [by apply accepted_transfer_after_seek |].
  split; intros; by apply locked_transfer_runs.
Qed.

End Serialiser.

Lemma read_write_serialised_witness :
  let self :=
    {| WrenchFS.root := "/srv/wrenchfs/benign";
       WrenchFS.rwlock := WrenchFS.Unlocked |} in
  let inherited : string -> WrenchFS.handler :=
    fun _ _ => WrenchFS.raise (FuseOSError 38) in
  let work :=
    [ [ {| WrenchFS.op := "read"; WrenchFS.path := "/a.txt";
           WrenchFS.args :=
             [WrenchFS.VInt 4; WrenchFS.VInt 0; WrenchFS.VInt 3] |} ];
      [ {| WrenchFS.op := "fsync"; WrenchFS.path := "/b.txt";
           WrenchFS.args := [WrenchFS.VInt 0; WrenchFS.VInt 9] |};
        {| WrenchFS.op := "write"; WrenchFS.path := "/b.txt";
           WrenchFS.args :=
             [WrenchFS.VBytes (b "xy"); WrenchFS.VInt 10;
              WrenchFS.VInt 4] |} ] ] in
  let tr : list WrenchFS.label :=
    [ (0%nat, WrenchFS.Acquire, Return (WrenchFS.VBool true));
      (0%nat,
       WrenchFS.Os "os.lseek"
         [WrenchFS.VInt 3; WrenchFS.VInt 0; WrenchFS.VInt 0],
       Return (WrenchFS.VInt 0));
      (1%nat,
       WrenchFS.Os "os.fsync" [WrenchFS.VInt 9],
       Raise (OSError 9));
      (0%nat,
       WrenchFS.Os "os.read" [WrenchFS.VInt 3; WrenchFS.VInt 4],
       Return (WrenchFS.VBytes (b "abc")));
      (0%nat, WrenchFS.Release, Return WrenchFS.VNone);
      (1%nat, WrenchFS.Acquire, Return (WrenchFS.VBool true));
      (1%nat,
       WrenchFS.Os "os.lseek"
         [WrenchFS.VInt 4; WrenchFS.VInt 10; WrenchFS.VInt 0],
       Return (WrenchFS.VInt 10));
      (1%nat,
       WrenchFS.Os "os.write" [WrenchFS.VInt 4; WrenchFS.VBytes (b "xy")],
       Return (WrenchFS.VInt 2));
      (1%nat, WrenchFS.Release, Return WrenchFS.VNone) ] in
  (forall name xs, WrenchFS.shaped WrenchFS.TOut (inherited name xs)) /\
  (exists P', WrenchFS.steps (WrenchFS.start self inherited work) tr P') /\
  WrenchFS.accepted WrenchFS.Free tr /\
  WrenchFS.seek_then_transfer tr /\
  WrenchFS.transfer_after_seek tr /\
  (forall path size offset fh t r,
     WrenchFS.lock_answers t ->
     WrenchFS.runs (WrenchFS.read [path; size; offset; fh]) t r
     <-> WrenchFS.critical_section fh offset
           (WrenchFS.Os "os.read" [fh; size]) t r) /\
  (forall path data offset fh t r,
     WrenchFS.lock_answers t ->
     WrenchFS.runs (WrenchFS.write [path; data; offset; fh]) t r
     <-> WrenchFS.critical_section fh offset
           (WrenchFS.Os "os.write" [fh; data]) t r).
Proof.
  intros self inherited work tr.
  assert (forall name xs,
            WrenchFS.shaped WrenchFS.TOut (inherited name xs)) as Hinh
    by (intros; constructor).
  assert (exists P',
            WrenchFS.steps (WrenchFS.start self inherited work) tr P')
    as [P' Hsteps].
  { eexists.
    repeat (eapply WrenchFS.steps_cons;
            [ first [ eapply WrenchFS.step_acquire
                    | eapply WrenchFS.step_release
                    | eapply WrenchFS.step_os ]; reflexivity
            | simpl ]).
    apply WrenchFS.steps_nil. }
  split; [exact Hinh |]. split; [by exists P' |].
  exact (read_write_serialised self inherited Hinh work tr P' Hsteps).
Defined.

(** ** Further properties of the virtual providers *)

Section VirtualExtras.

Import FormatFS.

Lemma bytes_slice_length (s : bytes) (o n : Z) :
  0 <= n ->
  len (bytes_slice s (Some o) (Some (o + n))) <= n /\
  len (bytes_slice s (Some o) (Some (o + n))) <= len s.
Proof.
  intros Hn. unfold len, bytes_slice, slice_indices, clamp.
  rewrite length_take, length_drop.
  destruct (Z.ltb_spec o 0), (Z.ltb_spec (o + n) 0); lia.
Qed.

(** X1: on the base path [HelloFS.read] never raises and, for a size that
    is not negative, never returns more than [size] bytes nor more than the
    file holds, whatever the offset; for an offset that is not negative the
    result is the window of the file starting there, which is empty from the
    end of the file on and the whole file for offset 0 and a size that
    covers it. *)
Theorem HelloFS_read_at_most_size (size offset fh : Z) :
  0 <= size ->
  exists d,
    HelloFS.read HelloFS.hello_path size offset fh = Return d /\
    len d <= size /\
    len d <= len HelloFS.hello_str /\
    (0 <= offset ->
     d = take (Z.to_nat size) (drop (Z.to_nat offset) HelloFS.hello_str)) /\
    (len HelloFS.hello_str <= offset -> d = []) /\
    (offset = 0 -> len HelloFS.hello_str <= size -> d = HelloFS.hello_str).
Proof.
  intros Hsize. eexists. split; [reflexivity |].
  pose proof (bytes_slice_length HelloFS.hello_str offset size Hsize)
    as [Hle1 Hle2].
  split; [done |]. split; [done |]. split; [| split].
  - intros Ho. by apply bytes_slice_window.
  - intros Ho. by apply bytes_slice_past_end.
  - intros -> Hcover. rewrite bytes_slice_window by lia.
    rewrite drop_0. apply take_ge. unfold len in Hcover. lia.
Qed.

Lemma HelloFS_read_at_most_size_witness :
  exists d,
    HelloFS.read HelloFS.hello_path 5 7 0 = Return d /\
    len d <= 5 /\
    len d <= len HelloFS.hello_str /\
    (0 <= 7 -> d = take (Z.to_nat 5) (drop (Z.to_nat 7) HelloFS.hello_str)) /\
    (len HelloFS.hello_str <= 7 -> d = []) /\
    (7 = 0 -> len HelloFS.hello_str <= 5 -> d = HelloFS.hello_str).
Proof. apply (HelloFS_read_at_most_size 5 7 0). lia. Defined.

(** X2: in [hello_fs.py] two reads that follow one another give, put
    together, what one read of the two sizes gives: reading in chunks
    reassembles the file. *)
Theorem HelloFS_read_in_chunks (n1 n2 offset fh : Z) :
  0 <= offset -> 0 <= n1 -> 0 <= n2 ->
  exists d1 d2,
    HelloFS.read HelloFS.hello_path n1 offset fh = Return d1 /\
    HelloFS.read HelloFS.hello_path n2 (offset + n1) fh = Return d2 /\
    HelloFS.read HelloFS.hello_path (n1 + n2) offset fh = Return (d1 ++ d2).
Proof.
  intros Ho H1 H2. eexists _, _.
  split; [reflexivity |]. split; [reflexivity |].
  unfold HelloFS.read. rewrite decide_False by auto. f_equal.
  rewrite !bytes_slice_window by lia.
  rewrite !Z2Nat.inj_add by lia.
  rewrite <- drop_drop. by rewrite take_take_drop.
Qed.

Lemma HelloFS_read_in_chunks_witness :
  exists d1 d2,
    HelloFS.read HelloFS.hello_path 6 0 0 = Return d1 /\
    HelloFS.read HelloFS.hello_path 20 (0 + 6) 0 = Return d2 /\
    HelloFS.read HelloFS.hello_path (6 + 20) 0 0 = Return (d1 ++ d2).
Proof. apply (HelloFS_read_in_chunks 6 20 0 0); lia. Defined.

Section AnyTable.

Context (tbl : dict bytes) (dflt : string).
Let self := with_formats tbl dflt.

(** What the two handlers do on a path other than the root, side by
    side. *)
Lemma read_getattr_agree (p : string) (handle : option Z) (size offset fh : Z) :
  p <> "/" ->
  (exists c,
     read self p size offset fh = Return c /\
     getattr self p handle = Return (file_attr (len c))) \/
  (exists e,
     read self p size offset fh = Raise e /\
     getattr self p handle = Raise e).
Proof.
  intros Hroot. destruct (decide (p = "/hello")) as [-> | Hbase].
  - unfold read, getattr, getitem. simpl.
    destruct (dict_get tbl dflt) as [c |]; [left | right]; by eexists.
  - destruct (has_dot_prefix self p) eqn:Hpre.
    + apply has_dot_prefix_inv in Hpre as (s & Hs & ->).
      pose proof (read_suffixed tbl dflt s size offset fh) as Hread.
      pose proof (getattr_suffixed tbl dflt handle s) as Hattr.
      unfold self.
      change ("/hello." +:+ s) with ("/hello" +:+ "." +:+ s).
      rewrite Hread, Hattr.
      destruct (dict_get tbl s) as [c |]; [| right; by eexists].
      rewrite !decide_False by done. left. by eexists.
    + right. exists (FuseOSError ENOENT).
      unfold read, getattr. simpl hello_path.
      rewrite !decide_False by done. by rewrite Hpre.
Qed.

(** X3: whatever formats are registered, [FormatFS.read] and
    [FormatFS.getattr] agree on every path but the root: where [read]
    returns a payload, [getattr] reports a regular file of exactly that
    many bytes, and where one raises the other raises the same exception.
    The root itself is a directory for [getattr] and does not exist for
    [read]. *)
Theorem FormatFS_read_agrees_with_getattr
    (p : string) (handle : option Z) (size offset fh : Z) :
  p <> "/" ->
  ((exists c,
      read self p size offset fh = Return c /\
      getattr self p handle = Return (file_attr (len c)) /\
      file_attr (len c) !! "st_size" = Some (len c)) \/
   (exists e,
      read self p size offset fh = Raise e /\
      getattr self p handle = Raise e)) /\
  read self "/" size offset fh = Raise (FuseOSError ENOENT) /\
  (exists st, getattr self "/" handle = Return st /\ st !! "st_size" = None).
Proof.
  intros Hroot. split; [| split; [done | by eexists]].
  destruct (read_getattr_agree p handle size offset fh Hroot)
    as [(c & Hr & Ha) | (e & Hr & Ha)]; [left | right]; eauto.
Qed.

(** X4: whatever formats are registered, attribute lookup succeeds exactly
    on the root, on the base path when the default format is registered,
    and on [base + "." + s] for a registered [s] that is not empty: a
    format registered under the empty name cannot be reached. *)
Theorem FormatFS_getattr_succeeds_iff (p : string) (handle : option Z) :
  (exists st, getattr self p handle = Return st) <->
  p = "/" \/
  (p = "/hello" /\ is_Some (dict_get tbl dflt)) \/
  (exists s, p = "/hello." +:+ s /\ s <> "" /\ is_Some (dict_get tbl s)).
Proof.
  split.
  - intros [st Hst]. destruct (decide (p = "/")) as [| Hroot]; [by left |].
    right. destruct (decide (p = "/hello")) as [-> | Hbase].
    + left. split; [done |]. revert Hst. unfold getattr, getitem. simpl.
      destruct (dict_get tbl dflt); [eauto | done].
    + right. destruct (has_dot_prefix self p) eqn:Hpre.
      * apply has_dot_prefix_inv in Hpre as (s & Hs & ->).
        exists s. split; [done |]. split; [done |].
        pose proof (getattr_suffixed tbl dflt handle s) as Hattr.
        unfold self in Hst.
        change ("/hello." +:+ s) with ("/hello" +:+ "." +:+ s) in Hst.
        rewrite Hattr in Hst. destruct (dict_get tbl s); [eauto | done].
      * revert Hst. unfold getattr. simpl hello_path.
        rewrite !decide_False by done. by rewrite Hpre.
  - intros [-> | [[-> [c Hc]] | (s & -> & Hs & [c Hc])]].
    + by eexists.
    + exists (file_attr (len c)). unfold getattr, getitem. simpl.
      by rewrite Hc.
    + exists (file_attr (len c)).
      pose proof (getattr_suffixed tbl dflt handle s) as Hattr.
      unfold self. change ("/hello." +:+ s) with ("/hello" +:+ "." +:+ s).
      rewrite Hattr, Hc. by rewrite decide_False.
Qed.

(** X5: whatever formats are registered (the default among them), every
    name the root listing shows besides [.] and [..] resolves: attribute
    lookup finds a regular file for it, it opens read-only, and it reads. *)
Theorem FormatFS_listed_names_resolve
    (names : list string) (name : string) (handle : option Z)
    (size offset fh : Z) :
  is_Some (dict_get tbl dflt) ->
  readdir self "/" fh = Return names ->
  name ∈ names -> name <> "." -> name <> ".." ->
  exists c,
    getattr self ("/" +:+ name) handle = Return (file_attr (len c)) /\
    open self ("/" +:+ name) O_RDONLY = Return 0 /\
    read self ("/" +:+ name) size offset fh = Return c.
Proof.
  intros [c Hc] [= <-] Hin Hdot Hdots.
  repeat (apply elem_of_cons in Hin as [-> | Hin]); try done;
    [| by apply elem_of_nil in Hin].
  exists c. unfold getattr, read, getitem. simpl. by rewrite Hc.
Qed.

End AnyTable.

(** X6: in both virtual providers [open] looks at nothing but the path and
    the two access-mode bits of the flags: it returns (handle 0) exactly
    for the base path with those bits clear, so creation, truncation and
    append flags on a read-only open are let through, and a path other
    than the base path is NotFound whatever the flags. *)
Theorem open_succeeds_iff (self : attrs) (path : string) (flags : Z) :
  (HelloFS.open path flags = Return 0 <->
   path = HelloFS.hello_path /\ Z.land flags 3 = 0) /\
  (open self path flags = Return 0 <->
   path = hello_path self /\ Z.land flags 3 = 0) /\
  HelloFS.open path flags = HelloFS.open path (Z.land flags 3) /\
  open self path flags = open self path (Z.land flags 3) /\
  HelloFS.open HelloFS.hello_path
    (Z.lor O_RDONLY (Z.lor O_CREAT O_TRUNC)) = Return 0 /\
  (path = HelloFS.hello_path \/
   HelloFS.open path flags = Raise (FuseOSError ENOENT)) /\
  (path = hello_path self \/ open self path flags = Raise FileNotFoundError).
Proof.
  assert (Z.land (Z.land flags 3) 3 = Z.land flags 3) as Hidem
    by (rewrite <- Z.land_assoc; done).
  unfold HelloFS.open, open.
  change (Z.lor (Z.lor O_RDONLY O_WRONLY) O_RDWR) with 3.
  change O_RDONLY with 0. rewrite Hidem.
  repeat split; repeat case_decide; try done; try tauto; try congruence;
    try (intros [? ?]; congruence).
Qed.

End VirtualExtras.

Lemma FormatFS_read_agrees_with_getattr_witness :
  ((exists c,
      FormatFS.read FormatFS.cls "/hello.csv" 8 0 0 = Return c /\
      FormatFS.getattr FormatFS.cls "/hello.csv" None
      = Return (FormatFS.file_attr (len c)) /\
      FormatFS.file_attr (len c) !! "st_size" = Some (len c)) \/
   (exists e,
      FormatFS.read FormatFS.cls "/hello.csv" 8 0 0 = Raise e /\
      FormatFS.getattr FormatFS.cls "/hello.csv" None = Raise e)) /\
  FormatFS.read FormatFS.cls "/" 8 0 0 = Raise (FuseOSError ENOENT) /\
  (exists st,
     FormatFS.getattr FormatFS.cls "/" None = Return st /\
     st !! "st_size" = None).
Proof.
  apply (FormatFS_read_agrees_with_getattr
           (FormatFS.content_by_format FormatFS.cls) "txt"
           "/hello.csv" None 8 0 0).
  discriminate.
Defined.

Lemma FormatFS_listed_names_resolve_witness :
  exists c,
    FormatFS.getattr FormatFS.cls ("/" +:+ "hello") None
    = Return (FormatFS.file_attr (len c)) /\
    FormatFS.open FormatFS.cls ("/" +:+ "hello") O_RDONLY = Return 0 /\
    FormatFS.read FormatFS.cls ("/" +:+ "hello") 14 0 0 = Return c.
Proof.
  apply (FormatFS_listed_names_resolve
           (FormatFS.content_by_format FormatFS.cls) "txt"
           [ "."; ".."; "hello" ] "hello" None 14 0 0).
  - by eexists.
  - reflexivity.
  - do 2 right. left.
  - discriminate.
  - discriminate.
Defined.

(** ** Further properties of the passthrough provider *)

Section PassthroughExtras.

Import WrenchFS.

Lemma runs_inv_call {A} (c : call) (k : result value -> prog A)
    (tr : list event) (r : result A) :
  runs (Call c k) tr r ->
  exists a tr', tr = (c, a) :: tr' /\ runs (k a) tr' r.
Proof. intros Hruns. inversion Hruns; subst. eauto. Qed.

Lemma runs_inv_done {A} (r0 : result A) (tr : list event) (r : result A) :
  runs (Done r0) tr r -> tr = [] /\ r = r0.
Proof. intros Hruns. by inversion Hruns. Qed.






(** X9: [WrenchFS.truncate] closes the file it opened on every way out.
    Either the builtin [open] of the path in mode ['r+'] fails and that is
    the result, with no further call; or the run is [open], [truncate] to
    the length on the file opened, [close] of that same file, and the
    result is [None] unless one of the two raised.  The handle argument is
    not used. *)
Theorem truncate_closes_what_it_opened
    (path length fh : value) (tr : list event) (r : result value) :
  runs (truncate [path; length]) tr r \/
  runs (truncate [path; length; fh]) tr r ->
  (exists e,
     tr = [ (Os "open" [path; VStr "r+"], Raise e) ] /\ r = Raise e) \/
  (exists f a c,
     tr = [ (Os "open" [path; VStr "r+"], Return f);
            (Os "file.truncate" [f; length], a);
            (Os "file.close" [f], c) ] /\
     r = match c, a with
         | Raise e, _ => Raise e
         | Return _, Raise e => Raise e
         | Return _, Return _ => Return VNone
         end).
Proof.
  intros Hruns.
  assert (runs (truncate_body path length) tr r) as Hbody
    by (by destruct Hruns).
  clear Hruns. unfold truncate_body in Hbody.
  apply runs_inv_call in Hbody as (a0 & tr0 & -> & Hbody).
  destruct a0 as [f | e]; simpl in Hbody.
  - right.
    apply runs_inv_call in Hbody as (a & tr1 & -> & Hbody). simpl in Hbody.
    apply runs_inv_call in Hbody as (c & tr2 & -> & Hbody). simpl in Hbody.
    exists f, a, c.
    destruct c as [vc | ec], a as [va | ea]; simpl in Hbody;
      by apply runs_inv_done in Hbody as [-> ->].
  - left. apply runs_inv_done in Hbody as [-> ->]. by exists e.
Qed.

Context (self : self_t) (inherited : string -> handler).

(** X10: [read], [write], [flush], [fsync] and [release] work on the handle
    alone: two requests that differ only in their path run the same
    program. *)
Theorem handle_operations_ignore_the_path
    (name path1 path2 : string) (xs : list value) :
  name ∈ [ "read"; "write"; "flush"; "fsync"; "release" ] ->
  __call__ self inherited name path1 xs
  = __call__ self inherited name path2 xs.
Proof.
  intros Hname.
  repeat (apply elem_of_cons in Hname as [-> | Hname]);
    try (by apply elem_of_nil in Hname);
    unfold __call__, super_call; simpl;
    repeat (destruct xs as [| ? xs]; try reflexivity).
Qed.

(** X11: the operations bound to a function of the [os] module ([chmod],
    [chown], [mkdir], [mknod], [open], [readlink], [rmdir], [unlink],
    [utimens]) make exactly one call, that function on the path prefixed
    with the root and the remaining arguments as they came, and return or
    raise what the call returned or raised; two different request paths
    never reach the backing file system as the same path. *)
Theorem os_bound_operations_relay
    (name fn path : string) (xs : list value)
    (tr : list event) (r : result value) :
  (name, fn) ∈ os_bound ->
  (runs (__call__ self inherited name path xs) tr r <->
   exists a, tr = [ (Os fn (VStr (root self +:+ path) :: xs), a) ] /\ r = a)
  /\
  (forall path', root self +:+ path = root self +:+ path' -> path = path').
Proof.
  intros Hname. split; [| intros path'; apply append_inj_r].
  unfold os_bound in Hname.
  repeat (apply elem_of_cons in Hname as [[= -> ->] | Hname]);
    try (by apply elem_of_nil in Hname);
    (split;
     [ intros Hruns; apply runs_inv_call in Hruns as (a & tr' & -> & Hruns);
       apply runs_inv_done in Hruns as [-> ->]; by exists a
     | intros (a & -> & ->); apply runs_call; apply runs_done ]).
Qed.

(** X12: [WrenchFS.readdir] lists the directory once and puts [.] and [..]
    in front of what the backing listing gave, every name kept and in the
    same order; a failure of the listing is the failure of [readdir]. *)
Theorem readdir_prepends_the_dot_entries
    (path fh : value) (tr : list event) (r : result value) :
  runs (readdir [path; fh]) tr r ->
  exists a,
    tr = [ (Os "os.listdir" [path], a) ] /\
    (forall names, a = Return (VList names) ->
       r = Return (VList (VStr "." :: VStr ".." :: names))) /\
    (forall e, a = Raise e -> r = Raise e).
Proof.
  intros Hruns.
  apply runs_inv_call in Hruns as (a & tr' & -> & Hruns). simpl in Hruns.
  exists a. destruct a as [v | e]; simpl in Hruns.
  - destruct v; simpl in Hruns;
      apply runs_inv_done in Hruns as [-> ->];
      (split; [done |]); split; intros; by simplify_eq.
  - apply runs_inv_done in Hruns as [-> ->].
    split; [done |]. split; intros; by simplify_eq.
Qed.

(** X13: [WrenchFS.access] asks [os.access] once and never hands its answer
    on: it returns [None] when the answer is true, raises
    [FuseOSError(EACCES)] when it is false, and lets an exception of the
    call through. *)
Theorem access_raises_EACCES_when_refused
    (path mode : value) (tr : list event) (r : result value) :
  runs (access [path; mode]) tr r ->
  exists a,
    tr = [ (Os "os.access" [path; mode], a) ] /\
    (forall v, a = Return v -> truthy v = true -> r = Return VNone) /\
    (forall v, a = Return v -> truthy v = false ->
       r = Raise (FuseOSError EACCES)) /\
    (forall e, a = Raise e -> r = Raise e).
Proof.
  intros Hruns.
  apply runs_inv_call in Hruns as (a & tr' & -> & Hruns). simpl in Hruns.
  exists a. destruct a as [v | e]; simpl in Hruns.
  - destruct (truthy v) eqn:Hv; simpl in Hruns;
      apply runs_inv_done in Hruns as [-> ->];
      (split; [done |]); repeat split; intros; simplify_eq; congruence.
  - apply runs_inv_done in Hruns as [-> ->].
    split; [done |]. repeat split; intros; by simplify_eq.
Qed.

(** X17: [link] and [symlink] hand their two paths to the backing call in
    the other order.  [link] prefixes the root to both (the second one
    itself, and raises [TypeError] without any call when it is not a
    string); [symlink] prefixes it to the place of the new link only and
    passes the text of the link as it came. *)
Theorem link_and_symlink_paths
    (target source : string) (tr : list event) (r : result value) :
  (runs (__call__ self inherited "link" target [VStr source]) tr r <->
   exists a,
     tr = [ (Os "os.link"
               [VStr (root self +:+ source); VStr (root self +:+ target)],
             a) ] /\ r = a) /\
  (runs (__call__ self inherited "symlink" target [VStr source]) tr r <->
   exists a,
     tr = [ (Os "os.symlink"
               [VStr source; VStr (root self +:+ target)], a) ] /\ r = a) /\
  (forall v,
     (forall s, v <> VStr s) ->
     runs (__call__ self inherited "link" target [v]) tr r ->
     tr = [] /\ r = Raise TypeError).
Proof.
  split; [| split].
  - split.
    + intros Hruns. apply runs_inv_call in Hruns as (a & tr' & -> & Hruns).
      apply runs_inv_done in Hruns as [-> ->]. by exists a.
    + intros (a & -> & ->). apply runs_call. apply runs_done.
  - split.
    + intros Hruns. apply runs_inv_call in Hruns as (a & tr' & -> & Hruns).
      apply runs_inv_done in Hruns as [-> ->]. by exists a.
    + intros (a & -> & ->). apply runs_call. apply runs_done.
  - intros v Hv Hruns.
    destruct v; try (by apply runs_inv_done in Hruns as [-> ->]).
    by destruct (Hv s).
Qed.

End PassthroughExtras.



Lemma truncate_closes_what_it_opened_witness :
  let path := WrenchFS.VStr "/srv/wrenchfs/benign/a.txt" in
  let f := WrenchFS.VInt 7 in
  let tr :=
    [ (WrenchFS.Os "open" [path; WrenchFS.VStr "r+"], Return f);
      (WrenchFS.Os "file.truncate" [f; WrenchFS.VInt 0], Raise (OSError 28));
      (WrenchFS.Os "file.close" [f], Return WrenchFS.VNone) ] in
  let r : result WrenchFS.value := Raise (OSError 28) in
  (exists e,
     tr = [ (WrenchFS.Os "open" [path; WrenchFS.VStr "r+"], Raise e) ] /\
     r = Raise e) \/
  (exists f' a c,
     tr = [ (WrenchFS.Os "open" [path; WrenchFS.VStr "r+"], Return f');
            (WrenchFS.Os "file.truncate" [f'; WrenchFS.VInt 0], a);
            (WrenchFS.Os "file.close" [f'], c) ] /\
     r = match c, a with
         | Raise e, _ => Raise e
         | Return _, Raise e => Raise e
         | Return _, Return _ => Return WrenchFS.VNone
         end).
Proof.
  intros path f tr r.
  apply (truncate_closes_what_it_opened
           path (WrenchFS.VInt 0) WrenchFS.VNone tr r).
  left. repeat (apply WrenchFS.runs_call; simpl). apply WrenchFS.runs_done.
Defined.

Lemma handle_operations_ignore_the_path_witness :
  let self :=
    {| WrenchFS.root := "/srv/wrenchfs/benign";
       WrenchFS.rwlock := WrenchFS.Unlocked |} in
  let inherited : string -> WrenchFS.handler :=
    fun _ _ => WrenchFS.raise (FuseOSError 38) in
  let xs := [WrenchFS.VInt 4; WrenchFS.VInt 0; WrenchFS.VInt 3] in
  WrenchFS.__call__ self inherited "read" "/a.txt" xs
  = WrenchFS.__call__ self inherited "read" "/no/such/file" xs.
Proof.
  intros self inherited xs.
  apply (handle_operations_ignore_the_path self inherited
           "read" "/a.txt" "/no/such/file" xs).
  left.
Defined.

Lemma os_bound_operations_relay_witness :
  let self :=
    {| WrenchFS.root := "/srv/wrenchfs/benign";
       WrenchFS.rwlock := WrenchFS.Unlocked |} in
  let inherited : string -> WrenchFS.handler :=
    fun _ _ => WrenchFS.raise (FuseOSError 38) in
  let xs := [WrenchFS.VInt 493] in
  let tr :=
    [ (WrenchFS.Os "os.mkdir"
         (WrenchFS.VStr "/srv/wrenchfs/benign/d" :: xs),
       Raise (OSError 17)) ] in
  let r : result WrenchFS.value := Raise (OSError 17) in
  (WrenchFS.runs (WrenchFS.__call__ self inherited "mkdir" "/d" xs) tr r <->
   exists a,
     tr = [ (WrenchFS.Os "os.mkdir"
               (WrenchFS.VStr (WrenchFS.root self +:+ "/d") :: xs), a) ] /\
     r = a) /\
  (forall path',
     WrenchFS.root self +:+ "/d" = WrenchFS.root self +:+ path' ->
     "/d" = path').
Proof.
  intros self inherited xs tr r.
  apply (os_bound_operations_relay self inherited
           "mkdir" "os.mkdir" "/d" xs tr r).
  do 2 right. left.
Defined.

Lemma readdir_prepends_the_dot_entries_witness :
  let path := WrenchFS.VStr "/srv/wrenchfs/benign/" in
  let names := [WrenchFS.VStr "b.txt"; WrenchFS.VStr "a.txt"] in
  let tr := [ (WrenchFS.Os "os.listdir" [path],
               Return (WrenchFS.VList names)) ] in
  let r :=
    Return (WrenchFS.VList
              (WrenchFS.VStr "." :: WrenchFS.VStr ".." :: names)) in
  exists a,
    tr = [ (WrenchFS.Os "os.listdir" [path], a) ] /\
    (forall names', a = Return (WrenchFS.VList names') ->
       r = Return (WrenchFS.VList
                     (WrenchFS.VStr "." :: WrenchFS.VStr ".." :: names'))) /\
    (forall e, a = Raise e -> r = Raise e).
Proof.
  intros path names tr r.
  apply (readdir_prepends_the_dot_entries path (WrenchFS.VInt 0) tr r).
  apply WrenchFS.runs_call. apply WrenchFS.runs_done.
Defined.

Lemma access_raises_EACCES_when_refused_witness :
  let path := WrenchFS.VStr "/srv/wrenchfs/benign/a.txt" in
  let mode := WrenchFS.VInt 2 in
  let tr := [ (WrenchFS.Os "os.access" [path; mode],
               Return (WrenchFS.VBool false)) ] in
  let r : result WrenchFS.value := Raise (FuseOSError EACCES) in
  exists a,
    tr = [ (WrenchFS.Os "os.access" [path; mode], a) ] /\
    (forall v, a = Return v -> WrenchFS.truthy v = true ->
       r = Return WrenchFS.VNone) /\
    (forall v, a = Return v -> WrenchFS.truthy v = false ->
       r = Raise (FuseOSError EACCES)) /\
    (forall e, a = Raise e -> r = Raise e).
Proof.
  intros path mode tr r.
  apply (access_raises_EACCES_when_refused path mode tr r).
  apply WrenchFS.runs_call. apply WrenchFS.runs_done.
Defined.

(** ** Further properties of the thread pool *)

Section PoolExtras.

Import WrenchFS.

Context (self : self_t) (inherited : string -> handler).
Hypothesis inherited_outside :
  forall name xs, shaped TOut (inherited name xs).

Lemma monitor_holder (ph ph' : phase) (i : nat) (c : call)
    (a : result value) (j : nat) :
  monitor ph (i, c, a) ph' -> holder ph' = Some j ->
  j = i \/ holder ph = Some j.
Proof. intros Hmon. inversion Hmon; subst; simpl; intros; simplify_eq; auto. Qed.

Lemma step_threads (P P' : pool) (i : nat) (c : call) (a : result value) :
  step P (i, c, a) P' ->
  is_Some (threads P' !! i) /\
  (forall j, is_Some (threads P !! j) -> is_Some (threads P' !! j)).
Proof.
  intros Hstep. inversion Hstep; subst; simpl;
    (split;
     [ apply lookup_lt_is_Some; rewrite length_insert;
       by eapply lookup_lt_Some
     | intros j Hj; apply lookup_lt_is_Some; rewrite length_insert;
       by apply lookup_lt_is_Some ]).
Qed.

Lemma steps_inv (P0 P : pool) (tr : list label) :
  steps P0 tr P ->
  (exists ph, inv ph P0 /\ holder_present ph P0) ->
  exists ph, inv ph P /\ holder_present ph P.
Proof.
  intros Hsteps.
  induction Hsteps as [P | P l P' tr P'' Hstep Hsteps IH]; [done |].
  intros (ph & Hinv & Hhold). apply IH.
  destruct (step_monitor ph P P' l Hinv Hstep)
    as (ph' & Hmon & Hinv').
  exists ph'. split; [done |]. intros j Hj.
  destruct l as [[i c] a].
  destruct (step_threads P P' i c a Hstep) as [Hi Hkeep].
  destruct (monitor_holder ph ph' i c a j Hmon Hj) as [-> | Hold]; [done |].
  apply Hkeep. by apply Hhold.
Qed.

Lemma reachable_inv (work : list (list request)) (tr : list label) (P : pool) :
  steps (start self inherited work) tr P ->
  exists ph, inv ph P /\ holder_present ph P.
Proof.
  intros Hsteps. apply (steps_inv _ _ _ Hsteps).
  exists Free. split; [by apply inv_start | by intros i [=]].
Qed.

Lemma shaped_TOut_outside {A} (p : prog A) :
  shaped TOut p -> ~ in_section p.
Proof.
  intros Hp. inversion Hp; subst; simpl; [tauto | congruence | tauto].
Qed.

Lemma in_section_holder (ph : phase) (i : nat) (p : prog value) :
  shaped (tag_of ph i) p -> in_section p -> holder ph = Some i.
Proof.
  intros Hp Hin. destruct ph; simpl in *; try case_decide; subst; try done;
    by apply shaped_TOut_outside in Hp.
Qed.

Lemma one_in_section (ph : phase) (P : pool) (i j : nat) (p q : prog value) :
  inv ph P ->
  threads P !! i = Some p -> in_section p ->
  threads P !! j = Some q -> in_section q ->
  i = j /\ rwlock (obj P) = Locked.
Proof.
  intros [Hlock Hts] Hi Hp Hj Hq.
  pose proof (in_section_holder ph i p (Hts i p Hi) Hp) as Hhi.
  pose proof (in_section_holder ph j q (Hts j q Hj) Hq) as Hhj.
  split; [congruence |]. rewrite Hlock. by destruct ph.
Qed.

Lemma holder_in_section (ph : phase) (i : nat) (p : prog value) :
  holder ph = Some i -> shaped (tag_of ph i) p ->
  in_section p /\ exists c k, p = Call c k /\ c <> Acquire.
Proof.
  intros Hi Hp. destruct ph; simpl in *; simplify_eq;
    rewrite decide_True in Hp by done;
    inversion Hp; subst; simpl;
    (split; [by (done || apply transfer_moves_offset) | by eexists _, _]).
Qed.

(** X14: mutual exclusion.  In every state the pool reaches, whatever the
    threads serve, at most one thread is between its [acquire] and its
    [release] (its next call repositions a handle, transfers or releases),
    and the lock is taken while one is. *)
Theorem at_most_one_thread_in_section
    (work : list (list request)) (tr : list label) (P : pool)
    (i j : nat) (p q : prog value) :
  steps (start self inherited work) tr P ->
  threads P !! i = Some p -> in_section p ->
  threads P !! j = Some q -> in_section q ->
  i = j /\ rwlock (obj P) = Locked.
Proof.
  intros Hsteps Hi Hp Hj Hq.
  destruct (reachable_inv work tr P Hsteps) as (ph & Hinv & _).
  by apply (one_in_section ph P i j p q).
Qed.

(** X15: the lock is never left behind.  In every state the pool reaches
    the lock is taken exactly when some thread is between its [acquire] and
    its [release]; so when every thread has finished, or is outside, the
    lock is free, also after transfers that raised. *)
Theorem lock_taken_iff_a_thread_in_section
    (work : list (list request)) (tr : list label) (P : pool) :
  steps (start self inherited work) tr P ->
  (rwlock (obj P) = Locked <->
   exists i p, threads P !! i = Some p /\ in_section p) /\
  ((forall i p, threads P !! i = Some p -> exists r, p = Done r) ->
   rwlock (obj P) = Unlocked).
Proof.
  intros Hsteps.
  destruct (reachable_inv work tr P Hsteps) as (ph & Hinv & Hhold).
  pose proof Hinv as [Hlock Hts].
  assert (rwlock (obj P) = Locked ->
          exists i p, threads P !! i = Some p /\ in_section p) as Hfwd.
  { intros Hlocked. rewrite Hlock in Hlocked.
    destruct (holder ph) as [i |] eqn:Hi; [| by destruct ph].
    destruct (Hhold i Hi) as [p Hp]. exists i, p. split; [done |].
    by apply (holder_in_section ph i p Hi (Hts i p Hp)). }
  split; [split; [done |] |].
  - intros (i & p & Hi & Hp).
    by apply (one_in_section ph P i i p p).
  - intros Hdone. destruct (rwlock (obj P)) eqn:Hl; [done |].
    destruct (Hfwd eq_refl) as (i & p & Hi & Hp).
    destruct (Hdone i p Hi) as [r ->]. done.
Qed.

(** X16: the pool never deadlocks.  In every state it reaches, as long as
    some thread still has a call to make, some thread can take a step: a
    free lock lets any thread go on, and a taken lock is held by a thread
    whose next call (reposition, transfer or release) the lock does not
    block, so a thread waiting in [acquire] is never waiting for good. *)
Theorem pool_never_deadlocks
    (work : list (list request)) (tr : list label) (P : pool)
    (i : nat) (c : call) (k : result value -> prog value) :
  steps (start self inherited work) tr P ->
  threads P !! i = Some (Call c k) ->
  exists l P', step P l P'.
Proof.
  intros Hsteps Hi.
  destruct (reachable_inv work tr P Hsteps) as (ph & [Hlock Hts] & Hhold).
  destruct P as [s ts]. simpl in *.
  destruct (holder ph) as [j |] eqn:Hj.
  - destruct (Hhold j Hj) as [p Hp]. simpl in Hp.
    destruct (holder_in_section ph j p Hj (Hts j p Hp))
      as [_ (c' & k' & -> & Hne)].
    destruct c' as [fn xs | |]; [| done |].
    + eexists _, _. by eapply (step_os _ _ _ _ _ _ (Return VNone)).
    + eexists _, _. eapply step_release; [done |].
      rewrite Hlock. by destruct ph.
  - assert (ph = Free) as -> by (by destruct ph).
    pose proof (Hts i _ Hi) as Hsh. simpl in Hsh.
    destruct c as [fn xs | |].
    + eexists _, _. by eapply (step_os _ _ _ _ _ _ (Return VNone)).
    + eexists _, _. by eapply step_acquire.
    + inversion Hsh.
Qed.

End PoolExtras.

Ltac run_pool :=
  repeat (eapply WrenchFS.steps_cons;
          [ first [ eapply WrenchFS.step_acquire
                  | eapply WrenchFS.step_release
                  | eapply WrenchFS.step_os ]; reflexivity
          | simpl ]);
  apply WrenchFS.steps_nil.

Lemma at_most_one_thread_in_section_witness :
  let self :=
    {| WrenchFS.root := "/srv/wrenchfs/benign";
       WrenchFS.rwlock := WrenchFS.Unlocked |} in
  let inherited : string -> WrenchFS.handler :=
    fun _ _ => WrenchFS.raise (FuseOSError 38) in
  let work :=
    [ [ {| WrenchFS.op := "read"; WrenchFS.path := "/a.txt";
           WrenchFS.args :=
             [WrenchFS.VInt 4; WrenchFS.VInt 0; WrenchFS.VInt 3] |} ];
      [ {| WrenchFS.op := "write"; WrenchFS.path := "/b.txt";
           WrenchFS.args :=
             [WrenchFS.VBytes (b "xy"); WrenchFS.VInt 10;
              WrenchFS.VInt 4] |} ] ] in
  let tr : list WrenchFS.label :=
    [ (0%nat, WrenchFS.Acquire, Return (WrenchFS.VBool true)) ] in
  exists P p,
    WrenchFS.steps (WrenchFS.start self inherited work) tr P /\
    WrenchFS.threads P !! 0%nat = Some p /\
    WrenchFS.in_section p /\
    (0%nat = 0%nat /\ WrenchFS.rwlock (WrenchFS.obj P) = WrenchFS.Locked).
Proof.
  intros self inherited work tr.
  assert (forall name xs,
            WrenchFS.shaped WrenchFS.TOut (inherited name xs)) as Hinh
    by (intros; constructor).
  eassert (WrenchFS.steps (WrenchFS.start self inherited work) tr _)
    as Hsteps by run_pool.
  match type of Hsteps with
  | WrenchFS.steps _ _ ?P =>
      eassert (WrenchFS.threads P !! 0%nat = Some _) as Hth by reflexivity
  end.
  eexists _, _. split; [exact Hsteps |]. split; [exact Hth |].
  split; [reflexivity |].
  exact (at_most_one_thread_in_section self inherited Hinh work tr _
           0%nat 0%nat _ _ Hsteps Hth eq_refl Hth eq_refl).
Defined.

Lemma lock_taken_iff_a_thread_in_section_witness :
  let self :=
    {| WrenchFS.root := "/srv/wrenchfs/benign";
       WrenchFS.rwlock := WrenchFS.Unlocked |} in
  let inherited : string -> WrenchFS.handler :=
    fun _ _ => WrenchFS.raise (FuseOSError 38) in
  let work :=
    [ [ {| WrenchFS.op := "read"; WrenchFS.path := "/a.txt";
           WrenchFS.args :=
             [WrenchFS.VInt 4; WrenchFS.VInt 0; WrenchFS.VInt 3] |} ] ] in
  let tr : list WrenchFS.label :=
    [ (0%nat, WrenchFS.Acquire, Return (WrenchFS.VBool true));
      (0%nat,
       WrenchFS.Os "os.lseek"
         [WrenchFS.VInt 3; WrenchFS.VInt 0; WrenchFS.VInt 0],
       Return (WrenchFS.VInt 0));
      (0%nat,
       WrenchFS.Os "os.read" [WrenchFS.VInt 3; WrenchFS.VInt 4],
       Raise (OSError 5));
      (0%nat, WrenchFS.Release, Return WrenchFS.VNone) ] in
  exists P,
    WrenchFS.steps (WrenchFS.start self inherited work) tr P /\
    (WrenchFS.rwlock (WrenchFS.obj P) = WrenchFS.Locked <->
     exists i p, WrenchFS.threads P !! i = Some p /\ WrenchFS.in_section p)
    /\
    ((forall i p, WrenchFS.threads P !! i = Some p -> exists r, p = WrenchFS.Done r) ->
     WrenchFS.rwlock (WrenchFS.obj P) = WrenchFS.Unlocked).
Proof.
  intros self inherited work tr.
  assert (forall name xs,
            WrenchFS.shaped WrenchFS.TOut (inherited name xs)) as Hinh
    by (intros; constructor).
  eassert (WrenchFS.steps (WrenchFS.start self inherited work) tr _)
    as Hsteps by run_pool.
  eexists. split; [exact Hsteps |].
  exact (lock_taken_iff_a_thread_in_section self inherited Hinh work tr _
           Hsteps).
Defined.

Lemma pool_never_deadlocks_witness :
  let self :=
    {| WrenchFS.root := "/srv/wrenchfs/benign";
       WrenchFS.rwlock := WrenchFS.Unlocked |} in
  let inherited : string -> WrenchFS.handler :=
    fun _ _ => WrenchFS.raise (FuseOSError 38) in
  let work :=
    [ [ {| WrenchFS.op := "read"; WrenchFS.path := "/a.txt";
           WrenchFS.args :=
             [WrenchFS.VInt 4; WrenchFS.VInt 0; WrenchFS.VInt 3] |} ];
      [ {| WrenchFS.op := "write"; WrenchFS.path := "/b.txt";
           WrenchFS.args :=
             [WrenchFS.VBytes (b "xy"); WrenchFS.VInt 10;
              WrenchFS.VInt 4] |} ] ] in
  let tr : list WrenchFS.label :=
    [ (0%nat, WrenchFS.Acquire, Return (WrenchFS.VBool true)) ] in
  exists P k,
    WrenchFS.steps (WrenchFS.start self inherited work) tr P /\
    WrenchFS.threads P !! 1%nat = Some (WrenchFS.Call WrenchFS.Acquire k) /\
    exists l P', WrenchFS.step P l P'.
Proof.
  intros self inherited work tr.
  assert (forall name xs,
            WrenchFS.shaped WrenchFS.TOut (inherited name xs)) as Hinh
    by (intros; constructor).
  eassert (WrenchFS.steps (WrenchFS.start self inherited work) tr _)
    as Hsteps by run_pool.
  match type of Hsteps with
  | WrenchFS.steps _ _ ?P =>
      eassert (WrenchFS.threads P !! 1%nat
               = Some (WrenchFS.Call WrenchFS.Acquire _)) as Hth
        by reflexivity
  end.
  eexists _, _. split; [exact Hsteps |]. split; [exact Hth |].
  exact (pool_never_deadlocks self inherited Hinh work tr _
           1%nat _ _ Hsteps Hth).
Defined.
